(** * hax/handler.py : the queue consumer thread

    A shallow embedding of [ConsumerThread._do_work] as a small-step machine
    over an explicit state, together with the environment (the producer
    threads that enqueue messages and the operator that calls [stop]).

    Conventions.
    - Every interaction of the thread with the outside (log calls, sleeps,
      calls into collaborators, reads of the shared queue and of the stop
      flag, writes to reply queues) is appended to a chronological [trace].
    - Collaborators (the FFI, the HA link, the Consul client, the EQ
      publisher) are an oracle [respond] over an abstract world [W]: a call
      returns a Python value or raises.
    - Durations are in milliseconds: [time.sleep(0.2)] is [Sleep 200],
      [time.sleep(5)] is [Sleep 5000].
    - The mailbox holds message objects; [None] is not a message (pull_msg
      uses [None] for "queue empty"). Exceptions are instances of Python's
      [Exception]; interpreter-exit signals are outside the model. *)

From Stdlib Require Import List String ZArith NArith Bool Arith Lia.
Import ListNotations.
Open Scope string_scope.
Open Scope list_scope.

(** ** Data *)

(** [hax.types.Fid]: a pair of 64-bit numbers. *)
Record Fid := mkFid { container : Z; key : Z }.

(** Object identities of an HA link and of a reply queue. *)
Definition HaLink := nat.
Definition ReplyQueue := nat.
Definition MessageId := Z.

Record HAState := mkHAState { hs_fid : Fid; hs_status : string }.

Record SnsRepairStatusItem :=
  mkSnsRepairStatusItem { progress : Z; status : string; fid : Fid }.

(** The objects found in the queue. Fields that [_do_work] never reads are
    folded into one opaque number. [Unsupported] is any object of another
    class, identified by its repr. *)
Inductive item :=
| EntrypointRequest (ha_link_instance : HaLink) (rest : Z)
| ProcessEvent (evt : Z)
| HaNvecGetEvent (ha_link_instance : HaLink) (rest : Z)
| BroadcastHAStates (states : list HAState) (reply_to : option ReplyQueue)
| StobIoqError (fid : Fid) (rest : Z)
| SnsRepairStatus (reply_to : ReplyQueue)
| Unsupported (repr : string).

(** Python values that cross the boundary (results of collaborators,
    arguments of log calls, contents of reply queues). *)
Inductive pyval :=
| PyNone
| PyInt (z : Z)
| PyStr (s : string)
| PyFid (f : Fid)
| PyItem (it : item)
| PyStates (l : list HAState)
| PyMessageIds (l : list MessageId)
| PySnsItems (l : list SnsRepairStatusItem).

Inductive exn :=
| StopIteration
| UnboundLocalError (name : string)
| OtherException (cls : string).

Inductive outcome :=
| Ret (v : pyval)
| Raise (e : exn).

(** Calls into collaborators. *)
Inductive call :=
| adopt_motr_thread
| shun_motr_thread
| send_entrypoint_request_reply (l : HaLink) (it : item)
| update_process_status (evt : Z)
| ha_nvec_get_reply (l : HaLink) (it : item)
| broadcast_ha_states (l : HaLink) (states : list HAState)
| publish (category payload : string).

Inductive level := DEBUG | INFO | WARNING | ERROR.

Inductive event :=
| Log (lvl : level) (fmt : string) (args : list pyval)
| LogException (msg : string) (e : exn)
| LogRetry (e : exn)
| Sleep (ms : N)
| QGet (r : option item)
| ReadStopped (b : bool)
| Called (c : call) (o : outcome)
| Put (q : ReplyQueue) (v : pyval).

(** How the thread function ended. *)
Inductive exit :=
| Returned
| Propagated (e : exn).

(** Control points of [_do_work]. *)
Inductive pc :=
| Init                              (* line 54 *)
| LoopTop                           (* line 66 *)
| Sleeping                          (* line 70 *)
| Checking                          (* line 71 *)
| Pulling                           (* line 73 *)
| Got (it : item)                   (* line 75 *)
| Retrying (wait : N) (c : call)    (* inside decorated(...), lines 90, 99 *)
| Exited (x : exit).

(** What a dispatch arm did: ran to its end, or entered the function
    decorated by [repeat_if_fails]. *)
Inductive arm :=
| Completed
| Decorated (wait : N) (c : call).

Inductive res (A : Type) :=
| Val (a : A)
| Exn (e : exn).
Arguments Val {A} a.
Arguments Exn {A} e.

(** The environment: the consumer thread takes a step, a producer enqueues,
    or somebody calls [stop]. *)
Inductive tick :=
| Consumer
| Enqueue (it : item)
| Stop.

(** Log lines of [_do_work]. *)
Definition log_started := Log INFO "Handler thread has started" [].
Definition log_exited := Log INFO "Handler thread has exited" [].
Definition log_waiting := Log DEBUG "Waiting for the next message" [].
Definition log_got (it : item) :=
  Log DEBUG "Got %s message from queue" [PyItem it].
Definition log_unsupported (it : item) :=
  Log WARNING "Unsupported event type received: %s" [PyItem it].

(** The record written by the SNS arm (lines 117-122). *)
Definition sns_stub (Fid_parse : string -> Fid) : list SnsRepairStatusItem :=
  [ mkSnsRepairStatusItem 25 "M0_CMS_ACTIVE"
      (Fid_parse "0x7200000000000001:deadbeef") ].

(** ** Test doubles

    Concrete collaborators, used to run the model on examples. *)

(** Every call returns [None]. *)
Definition all_fine (c : call) (w : unit) : outcome * unit := (Ret PyNone, w).

(** The HA link is down: replies to entrypoint requests fail. *)
Definition link_down (c : call) (w : unit) : outcome * unit :=
  match c with
  | send_entrypoint_request_reply _ _ =>
      (Raise (OtherException "ConnectionError"), w)
  | _ => (Ret PyNone, w)
  end.

(** Every call of an arm raises StopIteration; the handshakes return. *)
Definition arms_stop (c : call) (w : unit) : outcome * unit :=
  match c with
  | adopt_motr_thread | shun_motr_thread => (Ret PyNone, w)
  | _ => (Raise StopIteration, w)
  end.

(** Consul fails twice and then answers; the world counts the calls. *)
Definition consul_flaky (c : call) (n : nat) : outcome * nat :=
  match c with
  | update_process_status _ =>
      if Nat.ltb n 2 then (Raise (OtherException "HAConsistencyException"), S n)
      else (Ret PyNone, S n)
  | _ => (Ret PyNone, n)
  end.

(** The publisher returns the number of records written so far. *)
Definition publisher (c : call) (n : nat) : outcome * nat :=
  match c with
  | publish _ _ => (Ret (PyInt (Z.of_nat n)), S n)
  | _ => (Ret PyNone, n)
  end.

(** The Motr runtime refuses the thread. *)
Definition no_runtime (c : call) (w : unit) : outcome * unit :=
  match c with
  | adopt_motr_thread => (Raise (OtherException "RuntimeError"), w)
  | _ => (Ret PyNone, w)
  end.

(** A serialiser and a parser for the examples. *)
Definition json (it : item) : string :=
  match it with
  | StobIoqError _ _ => "{fid: ...}"
  | _ => "{}"
  end.

Definition parse_fid (s : string) : Fid :=
  if String.eqb s "0x7200000000000001:deadbeef"
  then mkFid 0x7200000000000001 0xdeadbeef
  else mkFid 0 0.

Section Handler.

(** State of the collaborators and their behaviour. *)
Variable W : Type.
Variable respond : call -> W -> outcome * W.

(** Modelled from the spec: [hax.util.dump_json] is not under src/; the
    spec calls it a deterministic serialisation of the payload to a
    canonical text, so it is a function of the item alone. *)
Variable dump_json : item -> string.

(** [hax.types.Fid.parse] is not under src/; it is applied to one literal
    only, and is taken as a function from text to [Fid]. *)
Variable Fid_parse : string -> Fid.

Record state := mkState {
  at_ : pc;
  mailbox : list item;            (* q *)
  is_stopped : bool;              (* self.is_stopped *)
  ha_link : option HaLink;        (* the local ha_link; None = unbound *)
  world : W;
  trace : list event
}.

(** *** A state-and-exception monad for the body of the loop *)

Definition M (A : Type) := state -> res A * state.

Definition ret {A} (a : A) : M A := fun s => (Val a, s).

Definition bind {A B} (m : M A) (k : A -> M B) : M B :=
  fun s => match m s with
           | (Val a, s') => k a s'
           | (Exn e, s') => (Exn e, s')
           end.

Definition raise {A} (e : exn) : M A := fun s => (Exn e, s).

Notation "x <- m ;; k" := (bind m (fun x => k))
  (at level 61, m at next level, right associativity).
Notation "m ;;; k" := (bind m (fun _ => k))
  (at level 61, right associativity).

Definition record (evs : list event) (s : state) : state :=
  mkState (at_ s) (mailbox s) (is_stopped s) (ha_link s) (world s)
          (trace s ++ evs).

Definition goto (p : pc) (s : state) : state :=
  mkState p (mailbox s) (is_stopped s) (ha_link s) (world s) (trace s).

Definition emit (e : event) : M unit := fun s => (Val tt, record [e] s).

Definition logging (lvl : level) (fmt : string) (args : list pyval) : M unit :=
  emit (Log lvl fmt args).

Definition sleep (ms : N) : M unit := emit (Sleep ms).

(** Call a collaborator: the world moves, the call and its outcome are
    traced, a raised exception propagates. *)
Definition invoke (c : call) : M pyval :=
  fun s =>
    let (o, w') := respond c (world s) in
    let s' := mkState (at_ s) (mailbox s) (is_stopped s) (ha_link s) w'
                      (trace s ++ [Called c o]) in
    match o with
    | Ret v => (Val v, s')
    | Raise e => (Exn e, s')
    end.

(** [ha_link = ...] (line 77). *)
Definition assign_ha_link (l : HaLink) : M unit :=
  fun s => (Val tt, mkState (at_ s) (mailbox s) (is_stopped s) (Some l)
                            (world s) (trace s)).

(** Reading the local [ha_link] (line 102). *)
Definition read_ha_link : M HaLink :=
  fun s => match ha_link s with
           | Some l => ret l s
           | None => raise (UnboundLocalError "ha_link") s
           end.

(** [reply_to.put(v)] on an unbounded queue. *)
Definition put (q : ReplyQueue) (v : pyval) : M unit := emit (Put q v).

(** *** Lines 76-126: the dispatch on the type of the item *)
Definition dispatch (it : item) : M arm :=
  match it with
  | EntrypointRequest l _ =>
      assign_ha_link l ;;;
      invoke (send_entrypoint_request_reply l it) ;;;
      ret Completed
  | ProcessEvent evt =>
      ret (Decorated 5000 (update_process_status evt))
  | HaNvecGetEvent l _ =>
      ret (Decorated 5000 (ha_nvec_get_reply l it))
  | BroadcastHAStates sts reply_to =>
      logging INFO "HA states: %s" [PyStates sts] ;;;
      l <- read_ha_link ;;
      result <- invoke (broadcast_ha_states l sts) ;;
      match reply_to with
      | Some q => put q result
      | None => ret tt
      end ;;;
      ret Completed
  | StobIoqError f _ =>
      logging INFO "Stob IOQ: %s" [PyFid f] ;;;
      let payload := dump_json it in
      logging DEBUG "Stob IOQ JSON: %s" [PyStr payload] ;;;
      offset <- invoke (publish "STOB_IOQ" payload) ;;
      logging DEBUG "Written to epoch: %s" [offset] ;;;
      ret Completed
  | SnsRepairStatus reply_to =>
      logging INFO "Requesting SNS status" [] ;;;
      sleep 5000 ;;;
      logging INFO "SNS status is received" [] ;;;
      put reply_to (PySnsItems (sns_stub Fid_parse)) ;;;
      ret Completed
  | Unsupported _ =>
      emit (log_unsupported it) ;;;
      ret Completed
  end.

(** *** Lines 57-61: pull_msg *)
Definition pull_msg (s : state) : state :=
  match mailbox s with
  | [] =>
      mkState Sleeping [] (is_stopped s) (ha_link s) (world s)
              (trace s ++ [QGet None])
  | it :: q' =>
      mkState (Got it) q' (is_stopped s) (ha_link s) (world s)
              (trace s ++ [QGet (Some it)])
  end.

(** *** Lines 127-135: a StopIteration leaves both try blocks *)
Definition stop_iteration (s : state) : state :=
  match invoke shun_motr_thread s with
  | (Val _, s') => goto (Exited Returned) (record [log_exited] s')
  | (Exn e, s') => goto (Exited (Propagated e)) (record [log_exited] s')
  end.

(** Modelled from the spec: [hax.util.repeat_if_fails] is not under src/.
    The spec: execute the action; on any exception log it, sleep the wait
    interval, retry the same call; no maximum attempt count, no backoff.
    One step is one attempt. *)
Definition repeat_if_fails (wait : N) (c : call) (s : state) : state :=
  match invoke c s with
  | (Val _, s') => goto LoopTop s'
  | (Exn e, s') => goto (Retrying wait c) (record [LogRetry e; Sleep wait] s')
  end.

(** *** One step of the consumer thread *)
Definition step (s : state) : state :=
  match at_ s with
  | Init =>
      match invoke adopt_motr_thread (record [log_started] s) with
      | (Val _, s') => goto LoopTop s'
      | (Exn e, s') => goto (Exited (Propagated e)) s'
      end
  | LoopTop => pull_msg (record [log_waiting] s)
  | Sleeping => goto Checking (record [Sleep 200] s)
  | Checking =>
      let s' := record [ReadStopped (is_stopped s)] s in
      if is_stopped s then stop_iteration s' else goto Pulling s'
  | Pulling => pull_msg s
  | Got it =>
      match dispatch it (record [log_got it] s) with
      | (Val Completed, s') => goto LoopTop s'
      | (Val (Decorated wait c), s') => goto (Retrying wait c) s'
      | (Exn StopIteration, s') => stop_iteration s'
      | (Exn e, s') => goto LoopTop (record [LogException "**ERROR**" e] s')
      end
  | Retrying wait c => repeat_if_fails wait c s
  | Exited _ => s
  end.

(** [ConsumerThread.stop] (line 51) and a producer's [q.put]. *)
Definition stop (s : state) : state :=
  mkState (at_ s) (mailbox s) true (ha_link s) (world s) (trace s).

Definition enqueue (it : item) (s : state) : state :=
  mkState (at_ s) (mailbox s ++ [it]) (is_stopped s) (ha_link s) (world s)
          (trace s).

Definition tick_step (t : tick) (s : state) : state :=
  match t with
  | Consumer => step s
  | Enqueue it => enqueue it s
  | Stop => stop s
  end.

Fixpoint run (sched : list tick) (s : state) : state :=
  match sched with
  | [] => s
  | t :: sched' => run sched' (tick_step t s)
  end.

(** The thread is created with the flag down and no local bound. *)
Definition start (q : list item) (w : W) : state :=
  mkState Init q false None w [].

(** The thread function, run from its first line under a schedule, on a
    queue that holds [q] and collaborators in the state [w]. *)
Definition _do_work (sched : list tick) (q : list item) (w : W) : state :=
  run sched (start q w).

(** *** Reading a trace *)

Definition got_item (e : event) : option item :=
  match e with
  | Log DEBUG fmt [PyItem it] =>
      if String.eqb fmt "Got %s message from queue" then Some it else None
  | _ => None
  end.

(** The items whose dispatch has begun, in order. *)
Definition dispatched (tr : list event) : list item :=
  flat_map (fun e => match got_item e with Some it => [it] | None => [] end) tr.

Definition is_called (e : event) : bool :=
  match e with Called _ _ => true | _ => false end.

Definition is_adopt (e : event) : bool :=
  match e with Called adopt_motr_thread _ => true | _ => false end.

Definition is_shun (e : event) : bool :=
  match e with Called shun_motr_thread _ => true | _ => false end.

Definition is_put (e : event) : bool :=
  match e with Put _ _ => true | _ => false end.

Definition is_warning (e : event) : bool :=
  match e with Log WARNING _ _ => true | _ => false end.

(** Category and payload of every publish call. *)
Definition published (tr : list event) : list (string * string) :=
  flat_map (fun e => match e with
                     | Called (publish c p) _ => [(c, p)]
                     | _ => []
                     end) tr.

Definition count (f : event -> bool) (tr : list event) : nat :=
  List.length (filter f tr).

(** What the producers did during a schedule. *)
Definition enqueued (sched : list tick) : list item :=
  flat_map (fun t => match t with Enqueue it => [it] | _ => [] end) sched.

Definition stop_requested (sched : list tick) : bool :=
  existsb (fun t => match t with Stop => true | _ => false end) sched.

Definition consumer_ticks (sched : list tick) : nat :=
  List.length (filter (fun t => match t with Consumer => true | _ => false end) sched).

(** The calls made by the dispatch arms (all but the two handshakes). *)
Definition arm_call (c : call) : bool :=
  match c with
  | adopt_motr_thread | shun_motr_thread => false
  | _ => true
  end.

Definition is_waiting (e : event) : bool :=
  match e with
  | Log _ fmt _ => String.eqb fmt "Waiting for the next message"
  | _ => false
  end.

Definition is_got (e : event) : bool :=
  match got_item e with Some _ => true | None => false end.

(** What an arm of the dispatch may leave in the trace. *)
Definition arm_event (e : event) : bool :=
  match e with
  | Log _ fmt _ =>
      negb (String.eqb fmt "Got %s message from queue")
      && negb (String.eqb fmt "Waiting for the next message")
  | Sleep _ => true
  | Called c _ => arm_call c
  | Put _ _ => true
  | _ => false
  end.

(** The message a control point holds without having begun its dispatch. *)
Definition pending (p : pc) : list item :=
  match p with Got it => [it] | _ => [] end.

(** The control-flow graph of [_do_work] with the events of each edge. *)
Inductive moves : pc -> list event -> pc -> Prop :=
| mv_adopted v :
    moves Init [log_started; Called adopt_motr_thread (Ret v)] LoopTop
| mv_adopt_raised e :
    moves Init [log_started; Called adopt_motr_thread (Raise e)]
          (Exited (Propagated e))
| mv_top_empty : moves LoopTop [log_waiting; QGet None] Sleeping
| mv_top_got it : moves LoopTop [log_waiting; QGet (Some it)] (Got it)
| mv_slept : moves Sleeping [Sleep 200] Checking
| mv_not_stopped : moves Checking [ReadStopped false] Pulling
| mv_stopped o x :
    moves Checking [ReadStopped true; Called shun_motr_thread o; log_exited]
          (Exited x)
| mv_pull_empty : moves Pulling [QGet None] Sleeping
| mv_pull_got it : moves Pulling [QGet (Some it)] (Got it)
| mv_done it evs :
    forallb arm_event evs = true ->
    moves (Got it) (log_got it :: evs) LoopTop
| mv_decorated it evs wait c :
    forallb arm_event evs = true -> arm_call c = true ->
    moves (Got it) (log_got it :: evs) (Retrying wait c)
| mv_logged it evs e :
    forallb arm_event evs = true ->
    moves (Got it) (log_got it :: evs ++ [LogException "**ERROR**" e])
          LoopTop
| mv_raised_stop it evs o x :
    forallb arm_event evs = true ->
    moves (Got it)
          (log_got it :: evs ++ [Called shun_motr_thread o; log_exited])
          (Exited x)
| mv_retry_returned wait c v :
    moves (Retrying wait c) [Called c (Ret v)] LoopTop
| mv_retry_again wait c e :
    moves (Retrying wait c) [Called c (Raise e); LogRetry e; Sleep wait]
          (Retrying wait c)
| mv_exited x : moves (Exited x) [] (Exited x).

(** A control point is sound when a retry wraps a call of an arm. *)
Definition sound (p : pc) : Prop :=
  match p with Retrying _ c => arm_call c = true | _ => True end.

(** Reading a trace from the left with one bit of memory, [busy]: a
    dispatch has begun and the loop has not come back to its top. A
    dispatch may begin, and the queue may be read, only when not busy; a
    call of an arm, a put on a reply queue and the logging of a failure
    need a dispatch in progress. [None] is a violation. *)
Fixpoint scan (busy : bool) (tr : list event) : option bool :=
  match tr with
  | [] => Some busy
  | e :: tr' =>
      if is_waiting e then scan false tr'
      else if is_got e then (if busy then None else scan true tr')
      else match e with
           | QGet _ => if busy then None else scan busy tr'
           | Called c _ =>
               if arm_call c then (if busy then scan busy tr' else None)
               else scan busy tr'
           | Put _ _ | LogRetry _ | LogException _ _ =>
               if busy then scan busy tr' else None
           | _ => scan busy tr'
           end
  end.

Definition sequential (tr : list event) : bool :=
  match scan false tr with Some _ => true | None => false end.

(** *** Predicates used by the statements and the invariants *)

(** The action fails with the exceptions [es], in this order, and then
    returns [v]. *)
Fixpoint fails_then_succeeds (c : call) (es : list exn) (v : pyval)
         (w w' : W) : Prop :=
  match es with
  | [] => respond c w = (Ret v, w')
  | e :: es' =>
      exists w1, respond c w = (Raise e, w1)
                 /\ fails_then_succeeds c es' v w1 w'
  end.

(** What the failed attempts leave in the trace. *)
Definition attempts (wait : N) (c : call) (es : list exn) : list event :=
  flat_map (fun e => [Called c (Raise e); LogRetry e; Sleep wait]) es.

(** The arms that go through [repeat_if_fails], with the wrapped call. *)
Inductive wrapped : item -> call -> Prop :=
| wrapped_process_event evt :
    wrapped (ProcessEvent evt) (update_process_status evt)
| wrapped_nvec_get l z :
    wrapped (HaNvecGetEvent l z) (ha_nvec_get_reply l (HaNvecGetEvent l z)).

Definition phase_ok (p : pc) (busy : bool) : Prop :=
  match p with
  | Init | Sleeping | Checking | Pulling | Got _ => busy = false
  | Retrying _ _ => busy = true
  | LoopTop | Exited _ => True
  end.

Definition is_read (e : event) : bool :=
  match e with ReadStopped _ => true | _ => false end.

Definition no_read (evs : list event) : bool :=
  forallb (fun e => negb (is_read e)) evs.

(** Every read of the flag comes right after an empty dequeue and the
    sleep of line 70; a read that finds the flag down is followed by the
    next dequeue, a read that finds it up by the exit and nothing else. *)
Definition check_ok (p : pc) (tr : list event) : Prop :=
  forall pre b post,
    tr = pre ++ ReadStopped b :: post ->
    (exists pre', pre = pre' ++ [QGet None; Sleep 200])
    /\ (if b
        then (exists o, post = [Called shun_motr_thread o; log_exited])
             /\ exists x, p = Exited x
        else (post = [] /\ p = Pulling)
             \/ exists r post', post = QGet r :: post').

Definition tail_ok (p : pc) (tr : list event) : Prop :=
  match p with
  | Sleeping => exists pre, tr = pre ++ [QGet None]
  | Checking => exists pre, tr = pre ++ [QGet None; Sleep 200]
  | _ => True
  end.

Definition is_handshake (e : event) : bool := is_adopt e || is_shun e.

Definition quiet (evs : list event) : bool :=
  forallb (fun e => negb (is_handshake e)) evs.

(** The shape of the trace at each control point: the adoption comes
    second, after the start line; the release comes last but one, before
    the exit line; in between no handshake is made. *)
Definition bracket_ok (p : pc) (tr : list event) : Prop :=
  match p with
  | Init => tr = []
  | Exited _ =>
      (exists e, tr = [log_started; Called adopt_motr_thread (Raise e)])
      \/ (exists v body o,
             tr = log_started :: Called adopt_motr_thread (Ret v)
                    :: body ++ [Called shun_motr_thread o; log_exited]
             /\ quiet body = true)
  | _ =>
      exists v body,
        tr = log_started :: Called adopt_motr_thread (Ret v) :: body
        /\ quiet body = true
  end.

Definition running (tr : list event) : Prop :=
  exists v body,
    tr = log_started :: Called adopt_motr_thread (Ret v) :: body
    /\ quiet body = true.

(** *** Further readings of a state and of a trace *)

(** The local [ha_link] once the dispatch of a message has begun: only an
    EntrypointRequest assigns it (line 77). *)
Definition rebind (hl : option HaLink) (it : item) : option HaLink :=
  match it with EntrypointRequest l _ => Some l | _ => hl end.

(** The link of the last EntrypointRequest of a list of messages. *)
Definition last_link (its : list item) : option HaLink :=
  fold_left rebind its None.

Definition no_put (evs : list event) : bool :=
  forallb (fun e => negb (is_put e)) evs.

(** Every put on a reply queue comes right after a broadcast that returned
    the value put, or right after the second log line of the SNS arm, with
    the stub as value. *)
Definition put_ok (tr : list event) : Prop :=
  forall pre rq v post,
    tr = pre ++ Put rq v :: post ->
    (exists pre' l sts,
        pre = pre' ++ [Called (broadcast_ha_states l sts) (Ret v)])
    \/ (exists pre',
           pre = pre' ++ [Log INFO "SNS status is received" []]
           /\ v = PySnsItems (sns_stub Fid_parse)).

(** How the trace of a thread that has ended looks, by the way it ended. *)
Definition exit_shape (x : exit) (tr : list event) : Prop :=
  match x with
  | Returned =>
      exists pre v, tr = pre ++ [Called shun_motr_thread (Ret v); log_exited]
  | Propagated e =>
      tr = [log_started; Called adopt_motr_thread (Raise e)]
      \/ exists pre,
           tr = pre ++ [Called shun_motr_thread (Raise e); log_exited]
  end.

Definition exit_ok (p : pc) (tr : list event) : Prop :=
  match p with
  | Init => tr = []
  | Exited x => exit_shape x tr
  | _ => True
  end.

(** [n] rounds of the inner loop of lines 69-73 on an empty queue. *)
Fixpoint polls (n : nat) : list event :=
  match n with
  | O => []
  | S n' => [Sleep 200; ReadStopped false; QGet None] ++ polls n'
  end.

(** Consumer steps a message takes from the top of the loop when no call
    fails: dequeue and dispatch, and one attempt for a wrapped call. *)
Definition cost (it : item) : nat :=
  match it with
  | ProcessEvent _ | HaNvecGetEvent _ _ => 3
  | _ => 2
  end.

Definition total_cost (q : list item) : nat := list_sum (map cost q).

(** Collaborators none of whose calls raises. *)
Definition healthy : Prop :=
  forall c w, exists v w', respond c w = (Ret v, w').

(** A wrapped call that fails in every state of the world. *)
Definition always_fails (c : call) : Prop :=
  forall w, exists e w1, respond c w = (Raise e, w1).

Definition is_send (e : event) : bool :=
  match e with Called (send_entrypoint_request_reply _ _) _ => true | _ => false end.

Definition is_publish (e : event) : bool :=
  match e with Called (publish _ _) _ => true | _ => false end.

Definition is_entrypoint (it : item) : bool :=
  match it with EntrypointRequest _ _ => true | _ => false end.

Definition is_stob (it : item) : bool :=
  match it with StobIoqError _ _ => true | _ => false end.

(** A call that carries a message goes to the link of that message, and a
    publish goes to the category STOB_IOQ. *)
Definition addressed_call (c : call) : bool :=
  match c with
  | send_entrypoint_request_reply l (EntrypointRequest l' _) => Nat.eqb l l'
  | send_entrypoint_request_reply _ _ => false
  | ha_nvec_get_reply l (HaNvecGetEvent l' _) => Nat.eqb l l'
  | ha_nvec_get_reply _ _ => false
  | publish category _ => String.eqb category "STOB_IOQ"
  | _ => true
  end.

Definition addressed (e : event) : bool :=
  match e with Called c _ => addressed_call c | _ => true end.

(** The calls that [_do_work] wraps in [repeat_if_fails]. *)
Definition retry_call (c : call) : bool :=
  match c with
  | update_process_status _ => true
  | ha_nvec_get_reply l (HaNvecGetEvent l' _) => Nat.eqb l l'
  | _ => false
  end.

Definition retry_sound (p : pc) : Prop :=
  match p with Retrying _ c => retry_call c = true | _ => True end.

(** *** Readings used for the order of service *)













(** ** One-step behaviour of the dispatch arms *)

Ltac exec :=
  unfold step, stop_iteration, repeat_if_fails, pull_msg, dispatch, bind,
    ret, raise, invoke, emit, logging, sleep, put, assign_ha_link,
    read_ha_link, record, goto; cbn.

Ltac tidy := repeat rewrite <- app_assoc; cbn [app].

(** The local [ha_link] is bound only by the EntrypointRequest arm: a
    broadcast dispatched while it is unbound raises before any call. *)
Lemma broadcast_unbound sts r q b w tr :
  step (mkState (Got (BroadcastHAStates sts r)) q b None w tr)
  = mkState LoopTop q b None w
      (tr ++ [log_got (BroadcastHAStates sts r);
              Log INFO "HA states: %s" [PyStates sts];
              LogException "**ERROR**" (UnboundLocalError "ha_link")]).
Proof. exec. tidy. reflexivity. Qed.

(** With the local bound, the states go out on that link and the result
    is put on the reply queue, after the call and once. *)
Lemma broadcast_bound sts q b l w tr rq v w' :
  respond (broadcast_ha_states l sts) w = (Ret v, w') ->
  step (mkState (Got (BroadcastHAStates sts (Some rq))) q b (Some l) w tr)
  = mkState LoopTop q b (Some l) w'
      (tr ++ [log_got (BroadcastHAStates sts (Some rq));
              Log INFO "HA states: %s" [PyStates sts];
              Called (broadcast_ha_states l sts) (Ret v);
              Put rq v]).
Proof. intros E. exec. rewrite E. cbn. tidy. reflexivity. Qed.

Lemma broadcast_bound_no_reply sts q b l w tr v w' :
  respond (broadcast_ha_states l sts) w = (Ret v, w') ->
  step (mkState (Got (BroadcastHAStates sts None)) q b (Some l) w tr)
  = mkState LoopTop q b (Some l) w'
      (tr ++ [log_got (BroadcastHAStates sts None);
              Log INFO "HA states: %s" [PyStates sts];
              Called (broadcast_ha_states l sts) (Ret v)]).
Proof. intros E. exec. rewrite E. cbn. tidy. reflexivity. Qed.

(** C1. A thread that starts with a BroadcastHAStates message at the head
    of its queue adopts the Motr thread, dequeues the message, logs the
    states and then fails on the unbound local [ha_link]: the error is
    logged, nothing is broadcast and nothing is put on the reply queue. *)
Theorem broadcast_first_message_is_dropped sts r q w v w' :
  respond adopt_motr_thread w = (Ret v, w') ->
  let it := BroadcastHAStates sts r in
  let s := _do_work [Consumer; Consumer; Consumer] (it :: q) w in
  s = mkState LoopTop q false None w'
        [log_started; Called adopt_motr_thread (Ret v);
         log_waiting; QGet (Some it);
         log_got it; Log INFO "HA states: %s" [PyStates sts];
         LogException "**ERROR**" (UnboundLocalError "ha_link")]
  /\ count is_put (trace s) = 0
  /\ count is_called (trace s) = 1.
Proof.
  intros E it s. subst s it. unfold _do_work. cbn [run tick_step].
  assert (S1 : step (start (BroadcastHAStates sts r :: q) w)
               = mkState LoopTop (BroadcastHAStates sts r :: q) false None w'
                   [log_started; Called adopt_motr_thread (Ret v)]).
  { exec. rewrite E. reflexivity. }
  rewrite S1.
  assert (S2 : step (mkState LoopTop (BroadcastHAStates sts r :: q) false None w'
                       [log_started; Called adopt_motr_thread (Ret v)])
               = mkState (Got (BroadcastHAStates sts r)) q false None w'
                   [log_started; Called adopt_motr_thread (Ret v);
                    log_waiting; QGet (Some (BroadcastHAStates sts r))]).
  { exec. reflexivity. }
  rewrite S2, broadcast_unbound. cbn. repeat split.
Qed.

(** ** Frame of a dispatch *)

(** No arm touches the queue, the stop flag or the control point; the
    trace only grows. *)
Lemma dispatch_frame it s r s' :
  dispatch it s = (r, s') ->
  at_ s' = at_ s /\ mailbox s' = mailbox s /\ is_stopped s' = is_stopped s
  /\ (exists evs, trace s' = trace s ++ evs /\ forallb arm_event evs = true)
  /\ (forall wait c, r = Val (Decorated wait c) -> arm_call c = true).
Proof.
  assert (N : trace s = trace s ++ [] /\ forallb arm_event [] = true)
    by (now rewrite app_nil_r).
  destruct it as [l z|evt|l z|sts [rq|]|f z|rq|name]; exec;
    repeat match goal with
           | |- context [respond ?c ?w] =>
               destruct (respond c w) as [[?v|?e] ?w1]; cbn
           | |- context [ha_link s] => destruct (ha_link s) as [?l|]; cbn
           end;
    intros H; inversion H; subst; cbn; tidy;
    (split; [reflexivity|]); (split; [reflexivity|]);
    (split; [reflexivity|]);
    (split; [eauto|intros ? ? D; inversion D; subst; reflexivity]).
Qed.

Lemma published_app tr1 tr2 :
  published (tr1 ++ tr2) = published tr1 ++ published tr2.
Proof. unfold published. apply flat_map_app. Qed.

(** C5. A StobIoqError is logged, serialised by [dump_json] (a function of
    the item alone), and published exactly once under the category
    STOB_IOQ; when the publisher returns an offset, that offset is logged
    and the loop goes on. *)
Theorem stob_ioq_published_once f z q b hl w tr :
  let it := StobIoqError f z in
  let c := publish "STOB_IOQ" (dump_json it) in
  let s' := step (mkState (Got it) q b hl w tr) in
  (exists evs,
      trace s' = tr ++ [log_got it;
                        Log INFO "Stob IOQ: %s" [PyFid f];
                        Log DEBUG "Stob IOQ JSON: %s" [PyStr (dump_json it)];
                        Called c (fst (respond c w))] ++ evs
      /\ published evs = []
      /\ forall offset, fst (respond c w) = Ret offset ->
           evs = [Log DEBUG "Written to epoch: %s" [offset]]
           /\ at_ s' = LoopTop /\ world s' = snd (respond c w))
  /\ published (trace s') = published tr ++ [("STOB_IOQ", dump_json it)].
Proof.
  intros it c s'. subst s' it c. exec.
  destruct (respond _ w) as [[v|e] w1] eqn:E; cbn.
  - split.
    + eexists. tidy. split; [reflexivity|]. split; [reflexivity|].
      intros off H. inversion H; subst. repeat split.
    + tidy. rewrite published_app. reflexivity.
  - destruct e as [|n|n]; cbn.
    + destruct (respond shun_motr_thread w1) as [[v2|e2] w2]; cbn.
      * split; [|tidy; rewrite published_app; reflexivity].
        eexists. tidy. split; [reflexivity|]. split; [reflexivity|].
        intros off H; discriminate.
      * split; [|tidy; rewrite published_app; reflexivity].
        eexists. tidy. split; [reflexivity|]. split; [reflexivity|].
        intros off H; discriminate.
    + split; [|tidy; rewrite published_app; reflexivity].
      eexists. tidy. split; [reflexivity|]. split; [reflexivity|].
      intros off H; discriminate.
    + split; [|tidy; rewrite published_app; reflexivity].
      eexists. tidy. split; [reflexivity|]. split; [reflexivity|].
      intros off H; discriminate.
Qed.

(** C6. An SnsRepairStatus request sleeps five seconds and then puts one
    list holding one record, built from literals only, on the reply queue
    of the message; the arm calls no collaborator and is not wrapped in a
    retry: the thread is back at the top of the loop after one step. *)
Theorem sns_repair_status_is_a_stub rq q b hl w tr :
  let it := SnsRepairStatus rq in
  step (mkState (Got it) q b hl w tr)
  = mkState LoopTop q b hl w
      (tr ++ [log_got it;
              Log INFO "Requesting SNS status" [];
              Sleep 5000;
              Log INFO "SNS status is received" [];
              Put rq (PySnsItems
                        [mkSnsRepairStatusItem 25 "M0_CMS_ACTIVE"
                           (Fid_parse "0x7200000000000001:deadbeef")])])
  /\ sns_stub Fid_parse
     = [mkSnsRepairStatusItem 25 "M0_CMS_ACTIVE"
          (Fid_parse "0x7200000000000001:deadbeef")].
Proof. intros it. subst it. split; [|reflexivity]. exec. tidy. reflexivity. Qed.

(** C7. An object of no known class gets one warning and nothing else:
    no collaborator is called, nothing is put, nothing is raised; queue,
    stop flag, the local and the world are as before, and the next step
    dequeues the next message. *)
Theorem unsupported_item_only_warns name q b hl w tr :
  let it := Unsupported name in
  let s := mkState (Got it) q b hl w tr in
  step s = mkState LoopTop q b hl w (tr ++ [log_got it; log_unsupported it])
  /\ count is_warning [log_got it; log_unsupported it] = 1
  /\ step (step s)
     = pull_msg (mkState LoopTop q b hl w
                   (tr ++ [log_got it; log_unsupported it; log_waiting])).
Proof.
  intros it s. subst s it.
  assert (E : step (mkState (Got (Unsupported name)) q b hl w tr)
              = mkState LoopTop q b hl w
                  (tr ++ [log_got (Unsupported name);
                          log_unsupported (Unsupported name)])).
  { exec. tidy. reflexivity. }
  split; [exact E|]. split; [reflexivity|].
  rewrite E. unfold step at 1. cbn [at_]. unfold record. cbn. tidy. reflexivity.
Qed.

(** ** The per-message try block *)

Lemma step_at_got s it :
  at_ s = Got it ->
  step s = match dispatch it (record [log_got it] s) with
           | (Val Completed, s') => goto LoopTop s'
           | (Val (Decorated wait c), s') => goto (Retrying wait c) s'
           | (Exn StopIteration, s') => stop_iteration s'
           | (Exn e, s') =>
               goto LoopTop (record [LogException "**ERROR**" e] s')
           end.
Proof. intros H. unfold step. rewrite H. reflexivity. Qed.

Lemma stop_iteration_exits s :
  (exists x, at_ (stop_iteration s) = Exited x)
  /\ trace (stop_iteration s)
     = trace s ++ [Called shun_motr_thread
                     (fst (respond shun_motr_thread (world s)));
                   log_exited]
  /\ mailbox (stop_iteration s) = mailbox s
  /\ is_stopped (stop_iteration s) = is_stopped s.
Proof.
  unfold stop_iteration, invoke, goto, record.
  destruct (respond shun_motr_thread (world s)) as [[v|e] w1]; cbn;
    tidy; repeat split; eauto.
Qed.

(** C3. When the dispatch of a message raises anything but StopIteration,
    the exception is logged by the handler of line 129, the message is not
    put back, and the thread is at the top of the loop, where its next
    step is a dequeue; StopIteration alone ends the loop. For an
    EntrypointRequest whose reply call raises, the call is made once, the
    error is logged and the next step dequeues the next message. *)
Theorem errors_are_logged_and_dropped :
  (forall s it e s',
      at_ s = Got it ->
      dispatch it (record [log_got it] s) = (Exn e, s') ->
      e <> StopIteration ->
      step s = goto LoopTop (record [LogException "**ERROR**" e] s')
      /\ mailbox (step s) = mailbox s
      /\ step (step s) = pull_msg (record [log_waiting] (step s)))
  /\ (forall s it s',
         at_ s = Got it ->
         dispatch it (record [log_got it] s) = (Exn StopIteration, s') ->
         exists x, at_ (step s) = Exited x)
  /\ (forall l z nxt q b hl w tr e w',
         let it := EntrypointRequest l z in
         respond (send_entrypoint_request_reply l it) w = (Raise e, w') ->
         e <> StopIteration ->
         let s1 := step (mkState (Got it) (nxt :: q) b hl w tr) in
         s1 = mkState LoopTop (nxt :: q) b (Some l) w'
                (tr ++ [log_got it;
                        Called (send_entrypoint_request_reply l it) (Raise e);
                        LogException "**ERROR**" e])
         /\ step s1 = mkState (Got nxt) q b (Some l) w'
                        (trace s1 ++ [log_waiting; QGet (Some nxt)])).
Proof.
  split; [|split].
  - intros s it e s' Hat Hd Hne.
    assert (E : step s = goto LoopTop (record [LogException "**ERROR**" e] s')).
    { rewrite (step_at_got _ _ Hat), Hd. destruct e; congruence. }
    split; [exact E|]. split.
    + rewrite E. cbn. apply dispatch_frame in Hd. cbn in Hd. tauto.
    + rewrite E. reflexivity.
  - intros s it s' Hat Hd. rewrite (step_at_got _ _ Hat), Hd.
    apply stop_iteration_exits.
  - intros l z nxt q b hl w tr e w' it E Hne s1.
    assert (E1 : s1 = mkState LoopTop (nxt :: q) b (Some l) w'
                       (tr ++ [log_got it;
                               Called (send_entrypoint_request_reply l it) (Raise e);
                               LogException "**ERROR**" e])).
    { subst s1 it. exec. rewrite E. cbn. destruct e; try congruence; cbn;
        tidy; reflexivity. }
    split; [exact E1|]. rewrite E1. exec. tidy. reflexivity.
Qed.

(** ** The retry wrapper *)

Lemma run_without_consumer sched p q b hl w tr :
  consumer_ticks sched = 0 ->
  run sched (mkState p q b hl w tr)
  = mkState p (q ++ enqueued sched) (b || stop_requested sched) hl w tr.
Proof.
  revert q b. induction sched as [|[|it|] sched IH]; intros q b H; cbn.
  - now rewrite app_nil_r, orb_false_r.
  - discriminate.
  - unfold enqueue; cbn. rewrite IH by exact H. now rewrite <- app_assoc.
  - unfold stop; cbn. rewrite IH by exact H. now rewrite orb_true_r.
Qed.

Lemma step_retrying_returns wait c q b hl w tr v w' :
  respond c w = (Ret v, w') ->
  step (mkState (Retrying wait c) q b hl w tr)
  = mkState LoopTop q b hl w' (tr ++ [Called c (Ret v)]).
Proof. intros E. exec. rewrite E. reflexivity. Qed.

Lemma step_retrying_raises wait c q b hl w tr e w1 :
  respond c w = (Raise e, w1) ->
  step (mkState (Retrying wait c) q b hl w tr)
  = mkState (Retrying wait c) q b hl w1
      (tr ++ [Called c (Raise e); LogRetry e; Sleep wait]).
Proof. intros E. exec. rewrite E. cbn. tidy. reflexivity. Qed.

Lemma run_retrying wait c v w' es :
  forall sched q b hl w tr,
    fails_then_succeeds c es v w w' ->
    consumer_ticks sched = S (List.length es) ->
    run sched (mkState (Retrying wait c) q b hl w tr)
    = mkState LoopTop (q ++ enqueued sched) (b || stop_requested sched) hl w'
        (tr ++ attempts wait c es ++ [Called c (Ret v)]).
Proof.
  induction es as [|e es IH]; intros sched;
    induction sched as [|[|it|] sched IHs];
    intros q b hl w tr F H; cbn in H; try discriminate;
    cbn [run tick_step].
  - cbn in F. rewrite (step_retrying_returns _ _ _ _ _ _ _ _ _ F).
    injection H as H. now rewrite run_without_consumer.
  - unfold enqueue; cbn. rewrite IHs by assumption.
    cbn. now rewrite <- app_assoc.
  - unfold stop; cbn. rewrite IHs by assumption.
    cbn. now rewrite orb_true_r.
  - destruct F as [w1 [E F]].
    rewrite (step_retrying_raises _ _ _ _ _ _ _ _ _ E).
    injection H as H. rewrite (IH sched q b hl w1 _ F H). cbn. tidy.
    reflexivity.
  - unfold enqueue; cbn. rewrite IHs by assumption.
    cbn. now rewrite <- app_assoc.
  - unfold stop; cbn. rewrite IHs by assumption.
    cbn. now rewrite orb_true_r.
Qed.

Lemma count_called_attempts wait c es :
  count is_called (attempts wait c es) = List.length es.
Proof.
  induction es as [|e es IH]; [reflexivity|].
  unfold count in *. cbn. now f_equal.
Qed.

Lemma dispatched_attempts wait c es : dispatched (attempts wait c es) = [].
Proof. induction es as [|e es IH]; cbn; [reflexivity|exact IH]. Qed.

Lemma step_got_wrapped it c q b hl w tr :
  wrapped it c ->
  step (mkState (Got it) q b hl w tr)
  = mkState (Retrying 5000 c) q b hl w (tr ++ [log_got it]).
Proof. intros [evt|l z]; exec; reflexivity. Qed.

Lemma run_got_wrapped it c v w' es :
  wrapped it c ->
  forall sched q b hl w tr,
    fails_then_succeeds c es v w w' ->
    consumer_ticks sched = S (S (List.length es)) ->
    run sched (mkState (Got it) q b hl w tr)
    = mkState LoopTop (q ++ enqueued sched) (b || stop_requested sched) hl w'
        (tr ++ [log_got it] ++ attempts 5000 c es ++ [Called c (Ret v)]).
Proof.
  intros Hw sched. induction sched as [|[|x|] sched IH];
    intros q b hl w tr F H; cbn in H; try discriminate; cbn [run tick_step].
  - rewrite (step_got_wrapped _ _ _ _ _ _ _ Hw). injection H as H.
    rewrite (run_retrying _ _ _ _ _ _ _ _ _ _ _ F H). tidy. reflexivity.
  - unfold enqueue; cbn. rewrite IH by assumption. cbn.
    now rewrite <- app_assoc.
  - unfold stop; cbn. rewrite IH by assumption. cbn. now rewrite orb_true_r.
Qed.

(** C4 (on the retry wrapper as the spec describes it). A ProcessEvent or
    HaNvecGetEvent whose wrapped call fails with the exceptions [es], one
    after the other, and then returns: whatever the producers do in the
    meantime, after the dispatch step and one step per attempt the call
    has been made [length es + 1] times, each failure followed by its log
    line and a sleep of five seconds before the next attempt, no other
    message has been dequeued or dispatched, and the thread is back at
    the top of the loop. The number of failures is arbitrary. *)
Theorem retry_until_success it c es v w w' sched q b hl tr :
  wrapped it c ->
  fails_then_succeeds c es v w w' ->
  consumer_ticks sched = List.length es + 2 ->
  let news := [log_got it] ++ attempts 5000 c es ++ [Called c (Ret v)] in
  run sched (mkState (Got it) q b hl w tr)
  = mkState LoopTop (q ++ enqueued sched) (b || stop_requested sched) hl w'
      (tr ++ news)
  /\ count is_called news = List.length es + 1
  /\ dispatched news = [it].
Proof.
  intros Hw F H news. subst news. split; [|split].
  - apply (run_got_wrapped _ _ _ _ _ Hw); [exact F|lia].
  - unfold count. cbn [app filter is_called log_got].
    rewrite filter_app, length_app. fold (count is_called (attempts 5000 c es)).
    rewrite count_called_attempts. cbn. lia.
  - unfold dispatched. cbn [app flat_map]. rewrite flat_map_app.
    fold (dispatched (attempts 5000 c es)). rewrite dispatched_attempts.
    reflexivity.
Qed.

(** A wrapped call that always fails is retried for ever. *)
Lemma retry_never_gives_up wait c :
  (forall w, exists e w1, respond c w = (Raise e, w1)) ->
  forall n q b hl w tr,
    at_ (run (repeat Consumer n) (mkState (Retrying wait c) q b hl w tr))
    = Retrying wait c.
Proof.
  intros Hf n. induction n as [|n IH]; intros q b hl w tr; [reflexivity|].
  cbn [repeat run tick_step]. destruct (Hf w) as [e [w1 E]].
  rewrite (step_retrying_raises _ _ _ _ _ _ _ _ _ E). apply IH.
Qed.

(** ** Every step follows an edge of the control-flow graph *)

Lemma step_moves s :
  exists evs,
    trace (step s) = trace s ++ evs
    /\ moves (at_ s) evs (at_ (step s))
    /\ is_stopped (step s) = is_stopped s
    /\ mailbox s = pending (at_ (step s)) ++ mailbox (step s)
    /\ (sound (at_ s) -> sound (at_ (step s))).
Proof.
  destruct s as [p q b hl w tr]. destruct p as [| | | | |it|wait c|x].
  - exec. destruct (respond adopt_motr_thread w) as [[v|e] w1]; cbn;
      tidy; eexists; repeat split; constructor.
  - exec. destruct q as [|it q]; cbn; tidy; eexists; repeat split; constructor.
  - exec. eexists; repeat split; constructor.
  - exec. destruct b; cbn.
    + destruct (respond shun_motr_thread w) as [[v|e] w1]; cbn; tidy;
        eexists; repeat split; constructor.
    + eexists; repeat split; constructor.
  - exec. destruct q as [|it q]; cbn; eexists; repeat split; constructor.
  - rewrite step_at_got with (it := it) by reflexivity.
    destruct (dispatch it _) as [r s'] eqn:D.
    apply dispatch_frame in D. cbn in D.
    destruct D as [Hp [Hq [Hb [[evs [Ht Ha]] Hd]]]].
    destruct r as [[|wait c]|e].
    + exists (log_got it :: evs). cbn. rewrite Ht, Hq, Hb. tidy.
      repeat split. now constructor.
    + exists (log_got it :: evs). cbn. rewrite Ht, Hq, Hb. tidy.
      repeat split; [constructor; eauto|intros _; eauto].
    + assert (L : exists evs',
               trace (goto LoopTop (record [LogException "**ERROR**" e] s'))
               = tr ++ evs'
               /\ moves (Got it) evs' LoopTop).
      { exists (log_got it :: evs ++ [LogException "**ERROR**" e]). cbn.
        rewrite Ht. tidy. split; [reflexivity|now constructor]. }
      destruct e as [|n|n].
      * destruct (stop_iteration_exits s') as [[x Hx] [Htr [Hm Hs]]].
        exists (log_got it :: evs
                ++ [Called shun_motr_thread
                      (fst (respond shun_motr_thread (world s')));
                    log_exited]).
        rewrite Htr, Hx, Hm, Hs, Ht, Hq, Hb. cbn. tidy.
        repeat split. now constructor.
      * destruct L as [evs' [L1 L2]]. exists evs'. cbn in *.
        rewrite Hq, Hb. repeat split; assumption.
      * destruct L as [evs' [L1 L2]]. exists evs'. cbn in *.
        rewrite Hq, Hb. repeat split; assumption.
  - exec. destruct (respond c w) as [[v|e] w1]; cbn; tidy;
      eexists; repeat split; try constructor. intros H; exact H.
  - exists []. cbn. rewrite app_nil_r. repeat split. constructor.
Qed.

Lemma run_snoc sched t s : run (sched ++ [t]) s = tick_step t (run sched s).
Proof. revert s. induction sched as [|u sched IH]; intros s; cbn; auto. Qed.


Lemma dispatched_app tr1 tr2 :
  dispatched (tr1 ++ tr2) = dispatched tr1 ++ dispatched tr2.
Proof. unfold dispatched. apply flat_map_app. Qed.

Lemma arm_event_not_got e : arm_event e = true -> got_item e = None.
Proof.
  destruct e as [lvl fmt args| | | | | | |]; cbn; try reflexivity.
  destruct (String.eqb fmt "Got %s message from queue"); cbn; [discriminate|].
  intros _. destruct lvl; try reflexivity.
  destruct args as [|[] [|]]; reflexivity.
Qed.

Lemma arm_events_dispatched evs :
  forallb arm_event evs = true -> dispatched evs = [].
Proof.
  induction evs as [|e evs IH]; cbn; [reflexivity|].
  intros H. apply andb_prop in H as [He Hr].
  rewrite (arm_event_not_got _ He). cbn. auto.
Qed.

Lemma moves_dispatched p evs p' : moves p evs p' -> dispatched evs = pending p.
Proof.
  intros Hm. destruct Hm; try reflexivity; cbn [pending];
    change (log_got it :: ?l) with ([log_got it] ++ l);
    rewrite ?dispatched_app, (arm_events_dispatched evs) by assumption;
    reflexivity.
Qed.

(** ** The queue is served in order *)


(** ** One dispatch at a time *)

Lemma scan_app tr evs : forall b,
  scan b (tr ++ evs)
  = match scan b tr with Some b' => scan b' evs | None => None end.
Proof.
  induction tr as [|e tr IH]; intros b; cbn [app scan]; [reflexivity|].
  destruct (is_waiting e); [apply IH|].
  destruct (is_got e); [destruct b; [reflexivity|apply IH]|].
  destruct e as [| | | | | |c o|]; try apply IH;
    try (destruct b; [apply IH|reflexivity]);
    try (destruct b; [reflexivity|apply IH]).
  destruct (arm_call c); [destruct b; [apply IH|reflexivity]|apply IH].
Qed.

Lemma scan_arm_events evs :
  forallb arm_event evs = true -> scan true evs = Some true.
Proof.
  induction evs as [|e evs IH]; cbn [forallb scan]; [reflexivity|].
  intros H. apply andb_prop in H as [He Hr]. specialize (IH Hr).
  assert (G : is_got e = false)
    by (unfold is_got; now rewrite (arm_event_not_got _ He)).
  rewrite G.
  destruct e as [lvl fmt args| | | | | |c o|]; cbn in He; try discriminate;
    cbn [is_waiting]; try exact IH.
  - apply andb_prop in He as [_ He].
    destruct (String.eqb fmt "Waiting for the next message"); [discriminate|].
    exact IH.
  - rewrite He. exact IH.
Qed.

Lemma moves_scan p evs p' b :
  moves p evs p' -> sound p -> phase_ok p b ->
  exists b', scan b evs = Some b' /\ phase_ok p' b'.
Proof.
  intros Hm Hs Hb.
  destruct Hm; cbn in Hb; subst;
    try (eexists; split; [reflexivity|cbn; auto]; fail).
  - exists true. split; [|exact I].
    change (scan false (log_got it :: evs)) with (scan true evs).
    now apply scan_arm_events.
  - exists true. split; [|reflexivity].
    change (scan false (log_got it :: evs)) with (scan true evs).
    now apply scan_arm_events.
  - exists true. split; [|exact I].
    change (scan false (log_got it :: ?l)) with (scan true l).
    rewrite scan_app, scan_arm_events by assumption. reflexivity.
  - exists true. split; [|exact I].
    change (scan false (log_got it :: ?l)) with (scan true l).
    rewrite scan_app, scan_arm_events by assumption. reflexivity.
  - exists true. split; [|exact I]. cbn in Hs. cbn. now rewrite Hs.
  - exists true. split; [|reflexivity]. cbn in Hs. cbn. now rewrite Hs.
Qed.

Lemma sequential_invariant sched q w :
  let s := run sched (start q w) in
  sound (at_ s) /\ exists b, scan false (trace s) = Some b /\ phase_ok (at_ s) b.
Proof.
  induction sched as [|t sched IH] using rev_ind; cbn zeta in *.
  - cbn. split; [exact I|]. exists false. split; reflexivity.
  - rewrite run_snoc. set (s := run sched (start q w)) in *.
    destruct IH as [Hs [b [Hb Hp]]].
    destruct t as [|it|]; cbn [tick_step].
    + destruct (step_moves s) as [evs [Ht [Hm [_ [_ Hs']]]]].
      split; [auto|]. rewrite Ht, scan_app, Hb.
      exact (moves_scan _ _ _ _ Hm Hs Hp).
    + split; [exact Hs|]. exists b. split; assumption.
    + split; [exact Hs|]. exists b. split; assumption.
Qed.

(** ** Where the stop flag is read *)

Lemma forallb_impl (f g : event -> bool) l :
  (forall e, f e = true -> g e = true) ->
  forallb f l = true -> forallb g l = true.
Proof.
  intros H. induction l as [|e l IH]; cbn; [auto|].
  intros E. apply andb_prop in E as [E1 E2]. rewrite (H _ E1). auto.
Qed.

Lemma arm_events_no_read evs :
  forallb arm_event evs = true -> no_read evs = true.
Proof. apply forallb_impl. intros [ ]; cbn; auto. Qed.

Lemma no_read_not_in evs b : no_read evs = true -> ~ In (ReadStopped b) evs.
Proof.
  intros H Hin. unfold no_read in H. rewrite forallb_forall in H.
  specialize (H _ Hin). discriminate.
Qed.

Lemma split_before (tr evs pre post : list event) x :
  tr ++ evs = pre ++ x :: post -> ~ In x evs ->
  exists post1, tr = pre ++ x :: post1 /\ post = post1 ++ evs.
Proof.
  intros E Hn. apply app_eq_app in E as [l [[E1 E2]|[E1 E2]]].
  - destruct l as [|y l]; cbn in E2.
    + exfalso. apply Hn. rewrite <- E2. now left.
    + injection E2 as E3 E4. subst. exists l. now split.
  - exfalso. apply Hn. rewrite E2. apply in_elt.
Qed.

Lemma check_ok_extend p p' tr evs :
  check_ok p tr -> no_read evs = true ->
  (forall x, p = Exited x -> evs = [] /\ p' = p) ->
  (p = Pulling -> exists r evs', evs = QGet r :: evs') ->
  check_ok p' (tr ++ evs).
Proof.
  intros IH Hn Hx Hp pre b post E.
  apply split_before in E as [post1 [E1 E2]];
    [|now apply no_read_not_in].
  destruct (IH _ _ _ E1) as [Hpre Hpost]. split; [exact Hpre|].
  destruct b.
  - destruct Hpost as [[o Ho] [x Hex]]. destruct (Hx _ Hex) as [-> ->].
    rewrite app_nil_r in E2. subst. split; eauto.
  - right. destruct Hpost as [[-> Hpull]|[r [post' ->]]].
    + destruct (Hp Hpull) as [r [evs' ->]]. subst. cbn. eauto.
    + subst. cbn. eauto.
Qed.

Lemma check_ok_read p' tr (b0 : bool) rest :
  check_ok Checking tr -> tail_ok Checking tr -> no_read rest = true ->
  (if b0
   then (exists o, rest = [Called shun_motr_thread o; log_exited])
        /\ exists x, p' = Exited x
   else rest = [] /\ p' = Pulling) ->
  check_ok p' (tr ++ ReadStopped b0 :: rest).
Proof.
  intros IH [pre0 Ht] Hn Hr pre b post E.
  apply app_eq_app in E as [l [[E1 E2]|[E1 E2]]].
  - destruct l as [|y l]; cbn in E2.
    + injection E2 as E3 E4. rewrite app_nil_r in E1. subst pre b post.
      split; [eauto|]. destruct b0; [exact Hr|now left].
    + injection E2 as E3 E4. subst y post.
      destruct (IH _ _ _ E1) as [Hpre Hpost].
      split; [exact Hpre|]. destruct b.
      * destruct Hpost as [_ [x Hx]]. discriminate.
      * destruct Hpost as [[_ Hx]|[r [post' ->]]]; [discriminate|].
        right. cbn. eauto.
  - destruct l as [|y l]; cbn in E2.
    + injection E2 as E3 E4. rewrite app_nil_r in E1. subst pre b0 rest.
      split; [eauto|]. destruct b; [exact Hr|now left].
    + injection E2 as E3 E4. exfalso. rename E4 into E2.
      apply (no_read_not_in rest b Hn). rewrite E2. apply in_elt.
Qed.

Lemma moves_check p evs p' tr :
  moves p evs p' -> check_ok p tr -> tail_ok p tr ->
  check_ok p' (tr ++ evs) /\ tail_ok p' (tr ++ evs).
Proof.
  intros Hm Hc Ht. destruct Hm;
    try (split; [|exact I];
         apply check_ok_extend with (p := Got it); auto;
         [ cbn; rewrite ?forallb_app; cbn;
           fold (no_read evs); rewrite arm_events_no_read by assumption;
           reflexivity
         | intros ? [=] | intros [=] ]; fail).
  - split; [|exact I]. apply check_ok_extend with (p := Init); auto;
      [intros ? [=]|intros [=]].
  - split; [|exact I]. apply check_ok_extend with (p := Init); auto;
      [intros ? [=]|intros [=]].
  - split.
    + apply check_ok_extend with (p := LoopTop); auto;
        [intros ? [=]|intros [=]].
    + exists (tr ++ [log_waiting]). now rewrite <- app_assoc.
  - split; [|exact I]. apply check_ok_extend with (p := LoopTop); auto;
      [intros ? [=]|intros [=]].
  - split.
    + apply check_ok_extend with (p := Sleeping); auto;
        [intros ? [=]|intros [=]].
    + destruct Ht as [pre ->]. exists pre. now rewrite <- app_assoc.
  - split; [|exact I]. apply check_ok_read; auto.
  - split; [|exact I]. apply check_ok_read; eauto.
  - split.
    + apply check_ok_extend with (p := Pulling); eauto. intros ? [=].
    + now exists tr.
  - split; [|exact I]. apply check_ok_extend with (p := Pulling); eauto.
    intros ? [=].
  - split; [|exact I].
    apply check_ok_extend with (p := Retrying wait c); auto;
      [intros ? [=]|intros [=]].
  - split; [|exact I].
    apply check_ok_extend with (p := Retrying wait c); auto;
      [intros ? [=]|intros [=]].
  - split; [|exact I]. rewrite app_nil_r. exact Hc.
Qed.

Lemma check_invariant sched q w :
  let s := run sched (start q w) in
  check_ok (at_ s) (trace s) /\ tail_ok (at_ s) (trace s).
Proof.
  induction sched as [|t sched IH] using rev_ind; cbn zeta in *.
  - cbn. split; [|exact I]. intros pre b post E.
    destruct pre; discriminate.
  - rewrite run_snoc. set (s := run sched (start q w)) in *.
    destruct IH as [Hc Ht]. destruct t as [|it|]; cbn [tick_step].
    + destruct (step_moves s) as [evs [He [Hm _]]]. rewrite He.
      now apply moves_check with (p := at_ s).
    + split; assumption.
    + split; assumption.
Qed.

(** The flag is read by the step at line 71 and by no other: a stop
    requested before any other step changes the flag and nothing else. *)
Lemma dispatch_ignores_stop it s :
  dispatch it (stop s)
  = (fst (dispatch it s), stop (snd (dispatch it s))).
Proof.
  destruct it as [l z|evt|l z|sts [rq|]|f z|rq|name]; exec;
    repeat match goal with
           | |- context [respond ?c ?w] =>
               destruct (respond c w) as [[?v|?e] ?w1]; cbn
           | |- context [ha_link s] => destruct (ha_link s) as [?l|]; cbn
           end; reflexivity.
Qed.

Lemma stop_iteration_ignores_stop s :
  stop_iteration (stop s) = stop (stop_iteration s).
Proof.
  unfold stop_iteration, invoke, goto, record, stop; cbn.
  destruct (respond shun_motr_thread (world s)) as [[v|e] w1]; reflexivity.
Qed.

Lemma step_ignores_stop s :
  at_ s <> Checking -> step (stop s) = stop (step s).
Proof.
  intros Hp. destruct (at_ s) as [| | | | |it|wait c|x] eqn:P;
    try congruence.
  - unfold step. cbn [stop at_]. rewrite P. exec.
    destruct (respond adopt_motr_thread (world s)) as [[v|e] w1]; reflexivity.
  - unfold step. cbn [stop at_]. rewrite P. exec.
    destruct (mailbox s); reflexivity.
  - unfold step. cbn [stop at_]. rewrite P. reflexivity.
  - unfold step. cbn [stop at_]. rewrite P. exec.
    destruct (mailbox s); reflexivity.
  - rewrite (step_at_got (stop s) it), (step_at_got s it) by exact P.
    change (record [log_got it] (stop s)) with (stop (record [log_got it] s)).
    rewrite dispatch_ignores_stop.
    destruct (dispatch it (record [log_got it] s)) as [[[|wait c]|e] s'];
      cbn [fst snd]; try reflexivity.
    destruct e; try reflexivity. apply stop_iteration_ignores_stop.
  - unfold step. cbn [stop at_]. rewrite P. exec.
    destruct (respond c (world s)) as [[v|e] w1]; reflexivity.
  - unfold step. cbn [stop at_]. rewrite P. reflexivity.
Qed.

(** C2. Under any schedule from the start of the thread, each read of the
    stop flag in the trace comes directly after an empty dequeue and the
    200 ms sleep; a read that finds the flag down is followed by the next
    dequeue attempt, and a read that finds it up is followed by the
    release handshake and the exit line only, so that nothing is dequeued
    or dispatched after it. No step other than that check depends on the
    flag: a stop requested while a message is in hand or being retried
    leaves the dispatch as it would have been. *)
Theorem stop_flag_read_only_while_waiting :
  (forall sched q w pre b post,
      trace (_do_work sched q w) = pre ++ ReadStopped b :: post ->
      (exists pre', pre = pre' ++ [QGet None; Sleep 200])
      /\ (if b
          then exists o, post = [Called shun_motr_thread o; log_exited]
          else post = [] \/ exists r post', post = QGet r :: post'))
  /\ (forall s, at_ s <> Checking -> step (stop s) = stop (step s)).
Proof.
  split; [|exact step_ignores_stop].
  intros sched q w pre b post E.
  destruct (check_invariant sched q w) as [Hc _].
  destruct (Hc _ _ _ E) as [Hpre Hpost]. split; [exact Hpre|].
  destruct b; [tauto|]. destruct Hpost as [[-> _]|H]; auto.
Qed.

(** ** The two handshakes with the Motr runtime *)

Lemma count_app f tr1 tr2 : count f (tr1 ++ tr2) = count f tr1 + count f tr2.
Proof. unfold count. now rewrite filter_app, length_app. Qed.

Lemma quiet_app evs1 evs2 : quiet (evs1 ++ evs2) = quiet evs1 && quiet evs2.
Proof. apply forallb_app. Qed.

Lemma arm_events_quiet evs : forallb arm_event evs = true -> quiet evs = true.
Proof.
  apply forallb_impl. intros [ | | | | | |c o| ]; cbn; auto.
  destruct c; cbn; auto.
Qed.

Lemma quiet_counts evs :
  quiet evs = true -> count is_adopt evs = 0 /\ count is_shun evs = 0.
Proof.
  unfold count. induction evs as [|e evs IH]; cbn; [auto|].
  intros H. apply andb_prop in H as [He Hr]. specialize (IH Hr).
  unfold is_handshake in He. apply negb_true_iff, orb_false_iff in He.
  destruct He as [-> ->]. exact IH.
Qed.

Lemma running_extend tr evs :
  running tr -> quiet evs = true -> running (tr ++ evs).
Proof.
  intros [v [body [-> Hq]]] He. exists v, (body ++ evs).
  now rewrite quiet_app, Hq, He.
Qed.

Lemma running_exit tr evs o :
  running tr -> quiet evs = true ->
  bracket_ok (Exited Returned)
             (tr ++ evs ++ [Called shun_motr_thread o; log_exited]).
Proof.
  intros [v [body [-> Hq]]] He. right. exists v, (body ++ evs), o.
  rewrite quiet_app, Hq, He. cbn. now rewrite <- app_assoc.
Qed.

Lemma moves_bracket p evs p' tr :
  moves p evs p' -> sound p -> bracket_ok p tr -> bracket_ok p' (tr ++ evs).
Proof.
  intros Hm Hs Hb.
  assert (Q : forall l, forallb arm_event l = true ->
                        forall it, quiet (log_got it :: l) = true)
    by (intros l Hl it; cbn; now apply arm_events_quiet).
  destruct Hm.
  - cbn in Hb. subst tr. exists v, []. now split.
  - cbn in Hb. subst tr. left. now exists e.
  - now apply running_extend.
  - now apply running_extend.
  - now apply running_extend.
  - now apply running_extend.
  - now apply (running_exit tr [ReadStopped true] o).
  - now apply running_extend.
  - now apply running_extend.
  - apply running_extend; auto.
  - apply running_extend; auto.
  - apply running_extend; auto.
    change (log_got it :: evs ++ [LogException "**ERROR**" e])
      with ((log_got it :: evs) ++ [LogException "**ERROR**" e]).
    rewrite quiet_app, Q by assumption. reflexivity.
  - change (log_got it :: evs ++ [Called shun_motr_thread o; log_exited])
      with ((log_got it :: evs) ++ [Called shun_motr_thread o; log_exited]).
    apply running_exit; auto.
  - apply running_extend; auto. cbn in Hs |- *. unfold is_handshake.
    destruct c; try discriminate; reflexivity.
  - apply running_extend; auto. cbn in Hs |- *. unfold is_handshake.
    destruct c; try discriminate; reflexivity.
  - rewrite app_nil_r. exact Hb.
Qed.

Lemma bracket_invariant sched q w :
  let s := run sched (start q w) in bracket_ok (at_ s) (trace s).
Proof.
  induction sched as [|t sched IH] using rev_ind; cbn zeta in *.
  - reflexivity.
  - rewrite run_snoc. set (s := run sched (start q w)) in *.
    destruct t as [|it|]; cbn [tick_step]; try exact IH.
    destruct (step_moves s) as [evs [He [Hm _]]]. rewrite He.
    apply moves_bracket with (p := at_ s); auto.
    apply sequential_invariant.
Qed.

Lemma bracket_adopted p tr :
  bracket_ok p tr -> p <> Init ->
  exists o rest,
    tr = log_started :: Called adopt_motr_thread o :: rest
    /\ count is_adopt rest = 0 /\ count is_adopt tr = 1.
Proof.
  assert (R : forall tr, running tr ->
              exists o rest,
                tr = log_started :: Called adopt_motr_thread o :: rest
                /\ count is_adopt rest = 0 /\ count is_adopt tr = 1).
  { intros tr0 [v [body [-> Hq]]]. exists (Ret v), body.
    destruct (quiet_counts _ Hq) as [Ha _]. split; [reflexivity|].
    split; [exact Ha|]. unfold count in *. cbn. now rewrite Ha. }
  intros Hb Hp. destruct p; try congruence; try (apply R; exact Hb).
  destruct Hb as [[e ->]|[v [body [o [-> Hq]]]]].
  - exists (Raise e), []. repeat split.
  - exists (Ret v), (body ++ [Called shun_motr_thread o; log_exited]).
    destruct (quiet_counts _ Hq) as [Ha _].
    assert (C : count is_adopt
                  (body ++ [Called shun_motr_thread o; log_exited]) = 0)
      by (rewrite count_app, Ha; reflexivity).
    split; [reflexivity|]. split; [exact C|].
    unfold count in *. cbn. now rewrite C.
Qed.

Lemma bracket_not_released p tr :
  bracket_ok p tr -> (forall x, p <> Exited x) -> count is_shun tr = 0.
Proof.
  assert (R : forall tr, running tr -> count is_shun tr = 0).
  { intros tr0 [v [body [-> Hq]]]. destruct (quiet_counts _ Hq) as [_ Hs].
    exact Hs. }
  intros Hb Hx. destruct p; try (apply R; exact Hb).
  - cbn in Hb. now subst.
  - exfalso. now apply (Hx x).
Qed.

Lemma bracket_released p tr pre post :
  bracket_ok p tr -> check_ok p tr ->
  tr = pre ++ ReadStopped true :: post ->
  (exists o, post = [Called shun_motr_thread o; log_exited])
  /\ count is_shun pre = 0 /\ count is_shun tr = 1
  /\ exists x, p = Exited x.
Proof.
  intros Hb Hc E. destruct (Hc _ _ _ E) as [_ [[o Ho] [x Hx]]].
  subst p post. cbn in Hb.
  destruct Hb as [[e He]|[v [body [o' [Ht Hq]]]]].
  - exfalso. rewrite He in E. apply (f_equal (@List.length event)) in E.
    rewrite length_app in E. cbn in E. lia.
  - assert (F : pre ++ [ReadStopped true]
                = log_started :: Called adopt_motr_thread (Ret v) :: body).
    { rewrite Ht in E.
      assert (E' : ((log_started :: Called adopt_motr_thread (Ret v) :: body)
                      ++ [Called shun_motr_thread o']) ++ [log_exited]
                   = ((pre ++ [ReadStopped true])
                        ++ [Called shun_motr_thread o]) ++ [log_exited]).
      { rewrite <- !app_assoc. cbn. exact E. }
      apply app_inj_tail in E' as [E' _].
      apply app_inj_tail in E' as [E' _]. symmetry. exact E'. }
    destruct (quiet_counts _ Hq) as [_ Hsh].
    assert (P0 : count is_shun pre = 0).
    { assert (C : count is_shun (pre ++ [ReadStopped true]) = 0)
        by (rewrite F; exact Hsh).
      rewrite count_app in C. cbn in C. lia. }
    split; [eauto|]. split; [exact P0|]. split; [|eauto].
    rewrite E, count_app, P0. reflexivity.
Qed.

(** ** The local ha_link *)

Lemma dispatch_ha_link it s :
  ha_link (snd (dispatch it s)) = rebind (ha_link s) it.
Proof.
  destruct s as [p q b hl w tr].
  destruct it as [l z|evt|l z|sts [rq|]|f z|rq|name]; exec;
    try destruct hl as [l0|]; cbn;
    repeat match goal with
           | |- context [respond ?c ?w] =>
               destruct (respond c w) as [[?v|?e] ?w1]; cbn
           end;
    reflexivity.
Qed.

Lemma stop_iteration_ha_link s : ha_link (stop_iteration s) = ha_link s.
Proof.
  unfold stop_iteration, invoke, goto, record.
  destruct (respond shun_motr_thread (world s)) as [[v|e] w1]; reflexivity.
Qed.

Lemma step_ha_link s :
  ha_link (step s) = fold_left rebind (pending (at_ s)) (ha_link s).
Proof.
  destruct s as [p q b hl w tr]. destruct p as [| | | | |it|wait c|x].
  - exec. destruct (respond adopt_motr_thread w) as [[v|e] w1]; reflexivity.
  - exec. destruct q; reflexivity.
  - reflexivity.
  - exec. destruct b; cbn; [|reflexivity].
    destruct (respond shun_motr_thread w) as [[v|e] w1]; reflexivity.
  - exec. destruct q; reflexivity.
  - rewrite step_at_got with (it := it) by reflexivity.
    pose proof (dispatch_ha_link it
                  (record [log_got it] (mkState (Got it) q b hl w tr))) as H.
    destruct (dispatch it _) as [r s']. cbn in H. cbn [pending fold_left at_ ha_link].
    rewrite <- H.
    destruct r as [[|wait c]|e]; try reflexivity.
    destruct e; try reflexivity. apply stop_iteration_ha_link.
  - exec. destruct (respond c w) as [[v|e] w1]; reflexivity.
  - reflexivity.
Qed.

Lemma ha_link_invariant sched q w :
  ha_link (_do_work sched q w)
  = last_link (dispatched (trace (_do_work sched q w))).
Proof.
  unfold _do_work.
  induction sched as [|t sched IH] using rev_ind; [reflexivity|].
  rewrite run_snoc. set (s := run sched (start q w)) in *.
  destruct t as [|it|]; cbn [tick_step]; try exact IH.
  destruct (step_moves s) as [evs [Ht [Hm _]]].
  rewrite step_ha_link, Ht, dispatched_app, (moves_dispatched _ _ _ Hm).
  unfold last_link in *. now rewrite fold_left_app, <- IH.
Qed.

Lemma fold_rebind_none its : forall acc,
  fold_left rebind its acc = None
  <-> acc = None /\ forall l z, ~ In (EntrypointRequest l z) its.
Proof.
  induction its as [|it its IH]; intros acc; cbn [fold_left].
  - split; [intros ->; split; [reflexivity|intros l z []]|tauto].
  - rewrite IH. split.
    + intros [Ha Hn]. destruct it; cbn in Ha; try discriminate;
        (split; [exact Ha|]); intros l z [E|Hin];
        try discriminate; now apply (Hn l z).
    + intros [-> Hn]. split.
      * destruct it as [l z| | | | | |]; cbn; try reflexivity.
        exfalso. apply (Hn l z). now left.
      * intros l z Hin. apply (Hn l z). now right.
Qed.

(** X1. In every run the local [ha_link] holds the link of the last
    EntrypointRequest whose dispatch has begun, whether or not its reply
    went through; it is unbound exactly when no EntrypointRequest has been
    dispatched yet. *)
Theorem ha_link_is_last_entrypoint_link sched q w :
  let s := _do_work sched q w in
  ha_link s = last_link (dispatched (trace s))
  /\ (ha_link s = None
      <-> forall l z, ~ In (EntrypointRequest l z) (dispatched (trace s))).
Proof.
  intros s. pose proof (ha_link_invariant sched q w) as H. fold s in H.
  split; [exact H|]. rewrite H. unfold last_link.
  rewrite fold_rebind_none. tauto.
Qed.

Lemma broadcast_step s sts r :
  at_ s = Got (BroadcastHAStates sts r) ->
  let it := BroadcastHAStates sts r in
  match ha_link s with
  | None =>
      step s = mkState LoopTop (mailbox s) (is_stopped s) None (world s)
                 (trace s ++ [log_got it;
                              Log INFO "HA states: %s" [PyStates sts];
                              LogException "**ERROR**"
                                (UnboundLocalError "ha_link")])
  | Some l =>
      let c := broadcast_ha_states l sts in
      exists rest,
        trace (step s)
        = trace s ++ [log_got it; Log INFO "HA states: %s" [PyStates sts];
                      Called c (fst (respond c (world s)))] ++ rest
        /\ forall v, fst (respond c (world s)) = Ret v ->
             rest = match r with Some rq => [Put rq v] | None => [] end
  end.
Proof.
  destruct s as [p q b hl w tr]. cbn [at_]. intros ->. cbn zeta.
  destruct hl as [l|]; cbn [ha_link].
  - destruct r as [rq|]; exec;
      destruct (respond (broadcast_ha_states l sts) w) as [[v|e] w1]; cbn;
      try (destruct e; cbn;
           try destruct (respond shun_motr_thread w1) as [[v2|e2] w2]; cbn);
      tidy; eexists; (split; [reflexivity|]); intros v' E;
      try discriminate; injection E as <-; reflexivity.
  - apply broadcast_unbound.
Qed.

(** X2. In every run, a BroadcastHAStates about to be dispatched fails on
    the unbound local, without any call, when no EntrypointRequest was
    dispatched before it; otherwise it broadcasts on the link of the last
    EntrypointRequest dispatched, and when that call returns it puts the
    result on the reply queue of the message, if there is one. *)
Theorem broadcast_goes_to_last_entrypoint_link sched q w sts r :
  let s := _do_work sched q w in
  let it := BroadcastHAStates sts r in
  at_ s = Got it ->
  match last_link (dispatched (trace s)) with
  | None =>
      step s = mkState LoopTop (mailbox s) (is_stopped s) None (world s)
                 (trace s ++ [log_got it;
                              Log INFO "HA states: %s" [PyStates sts];
                              LogException "**ERROR**"
                                (UnboundLocalError "ha_link")])
  | Some l =>
      let c := broadcast_ha_states l sts in
      exists rest,
        trace (step s)
        = trace s ++ [log_got it; Log INFO "HA states: %s" [PyStates sts];
                      Called c (fst (respond c (world s)))] ++ rest
        /\ forall v, fst (respond c (world s)) = Ret v ->
             rest = match r with Some rq => [Put rq v] | None => [] end
  end.
Proof.
  intros s it Hat. subst s it. rewrite <- (ha_link_invariant sched q w).
  exact (broadcast_step _ sts r Hat).
Qed.

(** ** The stop flag *)

(** X4. The thread never writes the stop flag: after any schedule the flag
    is up exactly when it was up before or a stop was requested meanwhile;
    in particular it is never lowered. *)
Theorem stop_flag_is_never_lowered sched : forall s,
  is_stopped (run sched s) = is_stopped s || stop_requested sched.
Proof.
  induction sched as [|t sched IH]; intros s; cbn [run stop_requested existsb].
  - now rewrite orb_false_r.
  - fold (stop_requested sched). rewrite IH. destruct t as [|it|]; cbn.
    + destruct (step_moves s) as [evs [_ [_ [Hb _]]]]. now rewrite Hb.
    + reflexivity.
    + now rewrite orb_true_r.
Qed.

(** ** How the thread ends *)

Lemma run_exited x : forall sched q b hl w tr,
  run sched (mkState (Exited x) q b hl w tr)
  = mkState (Exited x) (q ++ enqueued sched) (b || stop_requested sched)
            hl w tr.
Proof.
  induction sched as [|[|it|] sched IH]; intros q b hl w tr; cbn.
  - now rewrite app_nil_r, orb_false_r.
  - apply IH.
  - unfold enqueue; cbn. rewrite IH. now rewrite <- app_assoc.
  - unfold stop; cbn. rewrite IH. now rewrite orb_true_r.
Qed.

Lemma run_init_adopt_raises e w w' :
  respond adopt_motr_thread w = (Raise e, w') ->
  forall sched q b,
    1 <= consumer_ticks sched ->
    run sched (mkState Init q b None w [])
    = mkState (Exited (Propagated e)) (q ++ enqueued sched)
              (b || stop_requested sched) None w'
              [log_started; Called adopt_motr_thread (Raise e)].
Proof.
  intros E sched. induction sched as [|[|it|] sched IH]; intros q b H;
    cbn in H; cbn [run tick_step].
  - lia.
  - assert (S1 : step (mkState Init q b None w [])
                 = mkState (Exited (Propagated e)) q b None w'
                     [log_started; Called adopt_motr_thread (Raise e)])
      by (exec; rewrite E; reflexivity).
    rewrite S1, run_exited. reflexivity.
  - unfold enqueue; cbn. rewrite IH by exact H. cbn.
    now rewrite <- app_assoc.
  - unfold stop; cbn. rewrite IH by exact H. cbn. now rewrite orb_true_r.
Qed.

(** X5. When [adopt_motr_thread] raises, the thread ends with that
    exception at its first step: the loop is never entered, nothing is
    dequeued, no release is made and the exit line is not logged (the
    call stands before the try block); what producers enqueue stays in the
    queue. *)
Theorem failed_adoption_ends_the_thread sched q w e w' :
  respond adopt_motr_thread w = (Raise e, w') ->
  1 <= consumer_ticks sched ->
  _do_work sched q w
  = mkState (Exited (Propagated e)) (q ++ enqueued sched)
            (stop_requested sched) None w'
            [log_started; Called adopt_motr_thread (Raise e)].
Proof.
  intros E H. unfold _do_work, start.
  now rewrite (run_init_adopt_raises _ _ _ E sched q false H).
Qed.

Lemma stop_iteration_shape s :
  exists x, at_ (stop_iteration s) = Exited x
            /\ exit_shape x (trace (stop_iteration s)).
Proof.
  unfold stop_iteration, invoke, goto, record.
  destruct (respond shun_motr_thread (world s)) as [[v|e] w1]; cbn.
  - exists Returned. split; [reflexivity|]. exists (trace s), v.
    now rewrite <- app_assoc.
  - exists (Propagated e). split; [reflexivity|]. right. exists (trace s).
    now rewrite <- app_assoc.
Qed.

Lemma step_exit_ok s :
  exit_ok (at_ s) (trace s) -> exit_ok (at_ (step s)) (trace (step s)).
Proof.
  assert (SI : forall s0, exit_ok (at_ (stop_iteration s0))
                                  (trace (stop_iteration s0))).
  { intros s0. destruct (stop_iteration_shape s0) as [x [Hx Hs]].
    rewrite Hx. exact Hs. }
  destruct s as [p q b hl w tr]. destruct p as [| | | | |it|wait c|x];
    cbn [at_ trace exit_ok]; intros H.
  - subst tr. exec.
    destruct (respond adopt_motr_thread w) as [[v|e] w1]; cbn; auto.
  - exec. destruct q; exact I.
  - exact I.
  - unfold step. cbn [at_ is_stopped]. destruct b; [apply SI|exact I].
  - exec. destruct q; exact I.
  - rewrite step_at_got with (it := it) by reflexivity.
    destruct (dispatch it _) as [[[|wait c]|e] s']; try exact I.
    destruct e; try exact I. apply SI.
  - exec. destruct (respond c w) as [[v|e] w1]; exact I.
  - exact H.
Qed.

(** X6. In every run, when the thread function has returned, its trace
    ends with a call of [shun_motr_thread] that returned, followed by the
    exit line; when it has ended with an exception [e], either its trace
    is the start line and a call of [adopt_motr_thread] that raised [e],
    and nothing more, or its trace ends with a call of [shun_motr_thread]
    that raised [e], followed by the exit line. *)
Theorem thread_ends_only_through_the_handshakes sched q w x :
  at_ (_do_work sched q w) = Exited x ->
  exit_shape x (trace (_do_work sched q w)).
Proof.
  assert (Inv : exit_ok (at_ (_do_work sched q w))
                        (trace (_do_work sched q w))).
  { unfold _do_work.
    induction sched as [|t sched IH] using rev_ind; [reflexivity|].
    rewrite run_snoc. destruct t as [|it|]; cbn [tick_step]; try exact IH.
    now apply step_exit_ok. }
  intros Hx. rewrite Hx in Inv. exact Inv.
Qed.

(** ** Writes to reply queues *)

Lemma split_after (tr evs pre post : list event) x :
  tr ++ evs = pre ++ x :: post -> ~ In x tr ->
  exists pre1, pre = tr ++ pre1 /\ evs = pre1 ++ x :: post.
Proof.
  intros E Hn. apply app_eq_app in E as [l [[E1 E2]|[E1 E2]]].
  - destruct l as [|y l]; cbn in E2.
    + exists []. rewrite app_nil_r in E1. subst. now rewrite app_nil_r.
    + injection E2 as E3 E4. subst. exfalso. apply Hn. apply in_elt.
  - exists l. now split.
Qed.

Lemma no_put_not_in evs rq v : no_put evs = true -> ~ In (Put rq v) evs.
Proof.
  intros H Hin. unfold no_put in H. rewrite forallb_forall in H.
  specialize (H _ Hin). discriminate.
Qed.

Lemma no_put_ok evs : no_put evs = true -> put_ok evs.
Proof.
  intros H pre rq v post E. exfalso.
  apply (no_put_not_in evs rq v H). rewrite E. apply in_elt.
Qed.

Lemma put_ok_app tr evs : put_ok tr -> put_ok evs -> put_ok (tr ++ evs).
Proof.
  intros Ht He pre rq v post E.
  apply app_eq_app in E as [l [[E1 E2]|[E1 E2]]].
  - destruct l as [|y l]; cbn in E2.
    + exfalso. symmetry in E2.
      destruct (He [] rq v post E2) as [[pre' [l0 [sts H]]]|[pre' [H _]]];
        destruct pre'; discriminate.
    + injection E2 as E3 E4. subst y. exact (Ht _ _ _ _ E1).
  - destruct (He _ _ _ _ E2) as [[pre' [l0 [sts H]]]|[pre' [H Hv]]]; subst.
    + left. exists (tr ++ pre'), l0, sts. now rewrite <- app_assoc.
    + right. exists (tr ++ pre'). now rewrite <- app_assoc.
Qed.

(** A list that ends with one put, right after the event [x]. *)
Lemma put_ok_last l x rq v :
  no_put (l ++ [x]) = true ->
  (exists lk sts, x = Called (broadcast_ha_states lk sts) (Ret v))
  \/ (x = Log INFO "SNS status is received" []
      /\ v = PySnsItems (sns_stub Fid_parse)) ->
  put_ok (l ++ [x; Put rq v]).
Proof.
  intros Hn Hx pre rq' v' post E.
  change (l ++ [x; Put rq v]) with (l ++ [x] ++ [Put rq v]) in E.
  rewrite app_assoc in E.
  apply split_after in E as [pre1 [E1 E2]];
    [|now apply no_put_not_in].
  destruct pre1 as [|y pre1]; cbn in E2.
  - injection E2 as E3 E4 E5. subst. rewrite app_nil_r.
    destruct Hx as [[lk [sts ->]]|[-> Hv]].
    + left. now exists l, lk, sts.
    + right. now exists l.
  - injection E2 as _ E2. destruct pre1; discriminate.
Qed.

Lemma dispatch_put_ok it s :
  exists evs, trace (snd (dispatch it s)) = trace s ++ evs /\ put_ok evs.
Proof.
  destruct s as [p q b hl w tr].
  destruct it as [l z|evt|l z|sts [rq|]|f z|rq|name]; exec;
    try destruct hl as [l0|]; cbn;
    repeat match goal with
           | |- context [respond ?c ?w] =>
               destruct (respond c w) as [[?v|?e] ?w1]; cbn
           end;
    tidy;
    try (eexists; split; [reflexivity|apply no_put_ok; reflexivity]; fail);
    try (exists []; split; [now rewrite app_nil_r|apply no_put_ok; reflexivity]).
  - eexists. split; [reflexivity|].
    apply (put_ok_last [Log INFO "HA states: %s" [PyStates sts]]);
      [reflexivity|left; eauto].
  - eexists. split; [reflexivity|].
    apply (put_ok_last [Log INFO "Requesting SNS status" []; Sleep 5000]);
      [reflexivity|right; auto].
  - eexists. split; [reflexivity|].
    apply (put_ok_last [Log INFO "Requesting SNS status" []; Sleep 5000]);
      [reflexivity|right; auto].
Qed.

Lemma step_put_ok s :
  exists evs, trace (step s) = trace s ++ evs /\ put_ok evs.
Proof.
  destruct s as [p q b hl w tr]. destruct p as [| | | | |it|wait c|x].
  - exec. destruct (respond adopt_motr_thread w) as [[v|e] w1]; cbn; tidy;
      eexists; (split; [reflexivity|apply no_put_ok; reflexivity]).
  - exec. destruct q; cbn; tidy;
      eexists; (split; [reflexivity|apply no_put_ok; reflexivity]).
  - exec. eexists; (split; [reflexivity|apply no_put_ok; reflexivity]).
  - exec. destruct b; cbn;
      try destruct (respond shun_motr_thread w) as [[v|e] w1]; cbn; tidy;
      eexists; (split; [reflexivity|apply no_put_ok; reflexivity]).
  - exec. destruct q; cbn;
      eexists; (split; [reflexivity|apply no_put_ok; reflexivity]).
  - rewrite step_at_got with (it := it) by reflexivity.
    destruct (dispatch_put_ok it
                (record [log_got it] (mkState (Got it) q b hl w tr)))
      as [evs [Ht Hp]].
    destruct (dispatch it _) as [r s']. cbn in Ht.
    assert (G : put_ok (log_got it :: evs))
      by (apply (put_ok_app [log_got it]);
          [apply no_put_ok; reflexivity|exact Hp]).
    destruct r as [[|wait c]|e].
    + exists (log_got it :: evs). cbn. rewrite Ht. tidy. now split.
    + exists (log_got it :: evs). cbn. rewrite Ht. tidy. now split.
    + destruct e as [|n|n].
      * destruct (stop_iteration_exits s') as [_ [Htr _]].
        exists ((log_got it :: evs)
                ++ [Called shun_motr_thread
                      (fst (respond shun_motr_thread (world s')));
                    log_exited]).
        rewrite Htr, Ht. tidy. split; [reflexivity|].
        apply (put_ok_app (log_got it :: evs));
          [exact G|apply no_put_ok; reflexivity].
      * exists ((log_got it :: evs)
                ++ [LogException "**ERROR**" (UnboundLocalError n)]).
        cbn. rewrite Ht. tidy. split; [reflexivity|].
        apply (put_ok_app (log_got it :: evs));
          [exact G|apply no_put_ok; reflexivity].
      * exists ((log_got it :: evs)
                ++ [LogException "**ERROR**" (OtherException n)]).
        cbn. rewrite Ht. tidy. split; [reflexivity|].
        apply (put_ok_app (log_got it :: evs));
          [exact G|apply no_put_ok; reflexivity].
  - exec. destruct (respond c w) as [[v|e] w1]; cbn; tidy;
      eexists; (split; [reflexivity|apply no_put_ok; reflexivity]).
  - exists []. cbn. rewrite app_nil_r. split; [reflexivity|].
    apply no_put_ok; reflexivity.
Qed.

(** X3. In every run, each put on a reply queue comes directly after a
    [broadcast_ha_states] call that returned, and puts the value that call
    returned, or directly after the second log line of the SNS arm, and
    then puts the stub. A broadcast that raises, or that is never made,
    leaves the reply queue without an answer. *)
Theorem reply_only_after_returned_broadcast sched q w pre rq v post :
  trace (_do_work sched q w) = pre ++ Put rq v :: post ->
  (exists pre' l sts,
      pre = pre' ++ [Called (broadcast_ha_states l sts) (Ret v)])
  \/ (exists pre',
         pre = pre' ++ [Log INFO "SNS status is received" []]
         /\ v = PySnsItems (sns_stub Fid_parse)).
Proof.
  assert (Inv : put_ok (trace (_do_work sched q w))).
  { unfold _do_work.
    induction sched as [|t sched IH] using rev_ind.
    - apply no_put_ok. reflexivity.
    - rewrite run_snoc. destruct t as [|it|]; cbn [tick_step]; try exact IH.
      destruct (step_put_ok (run sched (start q w))) as [evs [Ht Hp]].
      rewrite Ht. now apply put_ok_app. }
  intros E. exact (Inv _ _ _ _ E).
Qed.

(** ** Waiting, stopping, blocking *)

(** X7. An idle thread (empty queue, flag down, nobody interfering) goes
    round the inner loop for ever: each round is the 200 ms sleep, a read
    of the flag and an empty dequeue; it calls no collaborator, logs
    nothing and changes nothing else. *)
Theorem idle_thread_only_polls n hl w tr :
  run (repeat Consumer (n * 3)) (mkState Sleeping [] false hl w tr)
  = mkState Sleeping [] false hl w (tr ++ polls n).
Proof.
  revert tr. induction n as [|n IH]; intros tr.
  - cbn. now rewrite app_nil_r.
  - cbn [Nat.mul Nat.add repeat run tick_step polls].
    assert (S1 : step (mkState Sleeping [] false hl w tr)
                 = mkState Checking [] false hl w (tr ++ [Sleep 200]))
      by reflexivity.
    assert (S2 : step (mkState Checking [] false hl w (tr ++ [Sleep 200]))
                 = mkState Pulling [] false hl w
                     (tr ++ [Sleep 200; ReadStopped false]))
      by (exec; tidy; reflexivity).
    assert (S3 : step (mkState Pulling [] false hl w
                         (tr ++ [Sleep 200; ReadStopped false]))
                 = mkState Sleeping [] false hl w
                     (tr ++ [Sleep 200; ReadStopped false; QGet None]))
      by (exec; tidy; reflexivity).
    rewrite S1, S2, S3, IH. now rewrite <- app_assoc.
Qed.

Lemma run_checking_stopped : forall sched q hl w tr,
  1 <= consumer_ticks sched ->
  let o := fst (respond shun_motr_thread w) in
  run sched (mkState Checking q true hl w tr)
  = mkState (Exited (match o with Ret _ => Returned | Raise e => Propagated e end))
            (q ++ enqueued sched) true hl (snd (respond shun_motr_thread w))
            (tr ++ [ReadStopped true; Called shun_motr_thread o; log_exited]).
Proof.
  induction sched as [|[|it|] sched IH]; intros q hl w tr H; cbn in H;
    cbn [run tick_step]; cbn zeta.
  - lia.
  - assert (S1 : step (mkState Checking q true hl w tr)
                 = mkState (Exited (match fst (respond shun_motr_thread w) with
                                    | Ret _ => Returned
                                    | Raise e => Propagated e
                                    end))
                     q true hl (snd (respond shun_motr_thread w))
                     (tr ++ [ReadStopped true;
                             Called shun_motr_thread
                                    (fst (respond shun_motr_thread w));
                             log_exited])).
    { exec. destruct (respond shun_motr_thread w) as [[v|e] w1]; cbn; tidy;
        reflexivity. }
    rewrite S1, run_exited. reflexivity.
  - unfold enqueue; cbn. rewrite IH by exact H. cbn zeta.
    now rewrite <- app_assoc.
  - unfold stop; cbn. now rewrite IH by exact H.
Qed.

(** X8. A thread that is asleep on an empty dequeue while the stop flag is
    up ends within its next two steps, whatever producers do in between:
    it makes the release handshake and logs the exit line, and the
    messages that were enqueued meanwhile stay in the queue, never
    dequeued. *)
Theorem stop_seen_after_sleep_ends_thread sched q hl w tr :
  2 <= consumer_ticks sched ->
  let o := fst (respond shun_motr_thread w) in
  run sched (mkState Sleeping q true hl w tr)
  = mkState (Exited (match o with Ret _ => Returned | Raise e => Propagated e end))
            (q ++ enqueued sched) true hl (snd (respond shun_motr_thread w))
            (tr ++ [Sleep 200; ReadStopped true;
                    Called shun_motr_thread o; log_exited]).
Proof.
  revert q. induction sched as [|[|it|] sched IH]; intros q H; cbn in H;
    cbn [run tick_step]; cbn zeta.
  - lia.
  - assert (S1 : step (mkState Sleeping q true hl w tr)
                 = mkState Checking q true hl w (tr ++ [Sleep 200]))
      by reflexivity.
    assert (H1 : 1 <= consumer_ticks sched)
      by (unfold consumer_ticks; lia).
    rewrite S1, (run_checking_stopped sched q hl w (tr ++ [Sleep 200]) H1).
    cbn zeta. tidy. reflexivity.
  - unfold enqueue; cbn. rewrite IH by exact H. cbn zeta.
    now rewrite <- app_assoc.
  - unfold stop; cbn. now rewrite IH by exact H.
Qed.

(** X11. While a wrapped call fails in every state of the world, the
    thread stays inside the retry under any schedule: one attempt per
    consumer step, each followed by its log line and the wait; nothing is
    dequeued, the stop flag is not read, and what producers enqueue piles
    up in the queue. *)
Theorem failing_wrapped_call_blocks_the_thread wait c :
  always_fails c ->
  forall sched q b hl w tr,
  exists es w',
    List.length es = consumer_ticks sched
    /\ run sched (mkState (Retrying wait c) q b hl w tr)
       = mkState (Retrying wait c) (q ++ enqueued sched)
                 (b || stop_requested sched) hl w'
                 (tr ++ attempts wait c es)
    /\ dispatched (attempts wait c es) = []
    /\ no_read (attempts wait c es) = true.
Proof.
  intros Hf sched.
  assert (NR : forall es, no_read (attempts wait c es) = true)
    by (induction es as [|e es IH]; [reflexivity|exact IH]).
  induction sched as [|[|it|] sched IH]; intros q b hl w tr;
    cbn [run tick_step].
  - exists [], w. cbn. rewrite !app_nil_r, orb_false_r. repeat split.
  - destruct (Hf w) as [e [w1 E]].
    rewrite (step_retrying_raises _ _ _ _ _ _ _ _ _ E).
    destruct (IH q b hl w1 (tr ++ [Called c (Raise e); LogRetry e; Sleep wait]))
      as [es [w' [Hl [Hr _]]]].
    exists (e :: es), w'. split; [cbn; now rewrite Hl|]. split.
    + rewrite Hr. cbn. tidy. reflexivity.
    + split; [apply dispatched_attempts|apply NR].
  - destruct (IH (q ++ [it]) b hl w tr) as [es [w' [Hl [Hr _]]]].
    exists es, w'. split; [exact Hl|]. split.
    + unfold enqueue; cbn. rewrite Hr. cbn. now rewrite <- app_assoc.
    + split; [apply dispatched_attempts|apply NR].
  - destruct (IH q true hl w tr) as [es [w' [Hl [Hr _]]]].
    exists es, w'. split; [exact Hl|]. split.
    + unfold stop; cbn. rewrite Hr. cbn. now rewrite orb_true_r.
    + split; [apply dispatched_attempts|apply NR].
Qed.

(** ** A backlog and the stop flag *)

Lemma run_app sched1 sched2 s :
  run (sched1 ++ sched2) s = run sched2 (run sched1 s).
Proof. revert s. induction sched1 as [|t sched1 IH]; intros s; cbn; auto. Qed.

Lemma step_top_pull it q b hl w tr :
  step (mkState LoopTop (it :: q) b hl w tr)
  = mkState (Got it) q b hl w (tr ++ [log_waiting; QGet (Some it)]).
Proof. exec. tidy. reflexivity. Qed.

Lemma healthy_dispatch (H : healthy) it q b hl w tr :
  exists hl' w' evs,
    run (repeat Consumer (cost it - 1)) (mkState (Got it) q b hl w tr)
    = mkState LoopTop q b hl' w' (tr ++ log_got it :: evs)
    /\ dispatched evs = [] /\ no_read evs = true.
Proof.
  destruct it as [l z|evt|l z|sts rq|f z|rq|name];
    cbn [cost Nat.sub repeat run tick_step].
  - destruct (H (send_entrypoint_request_reply l (EntrypointRequest l z)) w)
      as [v [w' E]].
    exec. rewrite E. cbn. tidy. eexists _, _, _. repeat split.
  - rewrite (step_got_wrapped _ _ _ _ _ _ _ (wrapped_process_event evt)).
    destruct (H (update_process_status evt) w) as [v [w' E]].
    rewrite (step_retrying_returns _ _ _ _ _ _ _ _ _ E). tidy.
    eexists _, _, _. repeat split.
  - rewrite (step_got_wrapped _ _ _ _ _ _ _ (wrapped_nvec_get l z)).
    destruct (H (ha_nvec_get_reply l (HaNvecGetEvent l z)) w) as [v [w' E]].
    rewrite (step_retrying_returns _ _ _ _ _ _ _ _ _ E). tidy.
    eexists _, _, _. repeat split.
  - destruct hl as [l|].
    + destruct (H (broadcast_ha_states l sts) w) as [v [w' E]].
      destruct rq as [rq|]; exec; rewrite E; cbn; tidy;
        eexists _, _, _; repeat split.
    + rewrite broadcast_unbound. eexists _, _, _. repeat split.
  - destruct (H (publish "STOB_IOQ" (dump_json (StobIoqError f z))) w)
      as [v [w' E]].
    exec. rewrite E. cbn. tidy. eexists _, _, _.
    split; [reflexivity|]. split; [|reflexivity].
    apply arm_events_dispatched. reflexivity.
  - exec. tidy. eexists _, _, _. repeat split.
  - exec. tidy. eexists _, _, _. repeat split.
Qed.

Lemma healthy_message (H : healthy) it q b hl w tr :
  exists hl' w' evs,
    run (repeat Consumer (cost it)) (mkState LoopTop (it :: q) b hl w tr)
    = mkState LoopTop q b hl' w' (tr ++ evs)
    /\ dispatched evs = [it] /\ no_read evs = true.
Proof.
  destruct (healthy_dispatch H it q b hl w
              (tr ++ [log_waiting; QGet (Some it)]))
    as [hl' [w' [evs [Hr [Hd Hn]]]]].
  exists hl', w', ([log_waiting; QGet (Some it); log_got it] ++ evs).
  split; [|split].
  - replace (cost it) with (S (cost it - 1)) by (destruct it; reflexivity).
    cbn [repeat run tick_step]. rewrite step_top_pull, Hr. tidy. reflexivity.
  - rewrite dispatched_app, Hd. reflexivity.
  - unfold no_read in *. rewrite forallb_app, Hn. reflexivity.
Qed.

(** X9. With collaborators whose calls return, a thread at the top of its
    loop dispatches the whole backlog, in queue order, in two steps per
    message and one more per wrapped call, and is then back at the top of
    the loop with an empty queue; it does so whether the stop flag is up
    or not, for the flag is not read on the way. *)
Theorem backlog_is_served_before_the_flag_is_read (H : healthy) q :
  forall b hl w tr,
  exists hl' w' evs,
    run (repeat Consumer (total_cost q)) (mkState LoopTop q b hl w tr)
    = mkState LoopTop [] b hl' w' (tr ++ evs)
    /\ dispatched evs = q /\ no_read evs = true.
Proof.
  induction q as [|it q IH]; intros b hl w tr.
  - exists hl, w, []. cbn. rewrite app_nil_r. repeat split.
  - change (total_cost (it :: q)) with (cost it + total_cost q).
    rewrite repeat_app, run_app.
    destruct (healthy_message H it q b hl w tr)
      as [hl1 [w1 [evs1 [Hr1 [Hd1 Hn1]]]]].
    destruct (IH b hl1 w1 (tr ++ evs1)) as [hl2 [w2 [evs2 [Hr2 [Hd2 Hn2]]]]].
    exists hl2, w2, (evs1 ++ evs2). split; [|split].
    + rewrite Hr1, Hr2. now rewrite <- app_assoc.
    + rewrite dispatched_app, Hd1, Hd2. reflexivity.
    + unfold no_read in *. rewrite forallb_app, Hn1, Hn2. reflexivity.
Qed.

(** ** Which calls are made, and how often *)

Lemma step_calls s :
  retry_sound (at_ s) ->
  exists evs,
    trace (step s) = trace s ++ evs
    /\ retry_sound (at_ (step s))
    /\ count is_send evs
       = List.length (filter is_entrypoint (pending (at_ s)))
    /\ count is_publish evs = List.length (filter is_stob (pending (at_ s)))
    /\ forallb addressed evs = true.
Proof.
  destruct s as [p q b hl w tr]. destruct p as [| | | | |it|wait c|x];
    cbn [at_ retry_sound]; intros Hs.
  - exec. destruct (respond adopt_motr_thread w) as [[v|e] w1]; cbn; tidy;
      eexists; repeat split.
  - exec. destruct q; cbn; tidy; eexists; repeat split.
  - exec. eexists; repeat split.
  - exec. destruct b; cbn;
      try destruct (respond shun_motr_thread w) as [[v|e] w1]; cbn; tidy;
      eexists; repeat split.
  - exec. destruct q; cbn; eexists; repeat split.
  - destruct it as [l z|evt|l z|sts [rq|]|f z|rq|name]; exec;
      try destruct hl as [l0|]; cbn;
      repeat match goal with
             | |- context [respond ?c ?w] =>
                 destruct (respond c w) as [[?v|?e] ?w1]; cbn
             | |- context [match ?e with StopIteration => _ | _ => _ end] =>
                 destruct e; cbn
             end;
      tidy; eexists;
      (split; [reflexivity|]); cbn; rewrite ?Nat.eqb_refl; repeat split.
  - destruct c as [| |l it|evt|l it|l sts|cat pl]; try discriminate.
    + exec. destruct (respond (update_process_status evt) w) as [[v|e] w1];
        cbn; tidy; eexists; (split; [reflexivity|]); repeat split.
    + destruct it as [| |l' z| | | |]; try discriminate. cbn in Hs.
      exec.
      destruct (respond (ha_nvec_get_reply l (HaNvecGetEvent l' z)) w)
        as [[v|e] w1];
        cbn; tidy; eexists; (split; [reflexivity|]); cbn; rewrite Hs;
        repeat split.
  - exists []. cbn. rewrite app_nil_r. repeat split.
Qed.

Lemma calls_invariant sched q w :
  let s := _do_work sched q w in
  retry_sound (at_ s)
  /\ count is_send (trace s)
     = List.length (filter is_entrypoint (dispatched (trace s)))
  /\ count is_publish (trace s)
     = List.length (filter is_stob (dispatched (trace s)))
  /\ forallb addressed (trace s) = true.
Proof.
  unfold _do_work. cbn zeta.
  induction sched as [|t sched IH] using rev_ind; [repeat split|].
  rewrite run_snoc. set (s := run sched (start q w)) in *.
  destruct t as [|it|]; cbn [tick_step]; try exact IH.
  destruct IH as [Hs [Hse [Hpu Had]]].
  destruct (step_calls s Hs) as [evs [Ht [Hs' [Cs [Cp Ca]]]]].
  destruct (step_moves s) as [evs' [Ht' [Hm _]]].
  assert (E : evs' = evs)
    by (apply (app_inv_head (trace s)); now rewrite <- Ht, <- Ht').
  subst evs'. pose proof (moves_dispatched _ _ _ Hm) as Hd.
  rewrite Ht, dispatched_app, Hd, !count_app, !filter_app, !length_app,
    forallb_app.
  rewrite Hse, Hpu, Had, Cs, Cp, Ca. repeat split. exact Hs'.
Qed.

(** X10. In every run, the number of [send_entrypoint_request_reply]
    calls made equals the number of EntrypointRequest messages whose
    dispatch has begun, and the number of [publish] calls equals the number
    of StobIoqError messages whose dispatch has begun: each such message
    gets exactly one attempt, failed or not, never a second one. *)
Theorem one_attempt_per_request sched q w :
  let s := _do_work sched q w in
  count is_send (trace s)
  = List.length (filter is_entrypoint (dispatched (trace s)))
  /\ count is_publish (trace s)
     = List.length (filter is_stob (dispatched (trace s))).
Proof.
  intros s. destruct (calls_invariant sched q w) as [_ [H1 [H2 _]]].
  split; assumption.
Qed.

(** X12. In every run, a reply to an entrypoint request and a reply to an
    nvec-get request are made on the link that the message itself carries
    (unlike the broadcast, which uses the local left by an earlier
    message), and every publish is made under the category STOB_IOQ. *)
Theorem replies_go_to_the_link_of_their_message sched q w :
  let tr := trace (_do_work sched q w) in
  (forall l it o,
      In (Called (send_entrypoint_request_reply l it) o) tr ->
      exists z, it = EntrypointRequest l z)
  /\ (forall l it o,
         In (Called (ha_nvec_get_reply l it) o) tr ->
         exists z, it = HaNvecGetEvent l z)
  /\ (forall category payload o,
         In (Called (publish category payload) o) tr ->
         category = "STOB_IOQ").
Proof.
  intros tr. destruct (calls_invariant sched q w) as [_ [_ [_ Ha]]].
  fold tr in Ha. rewrite forallb_forall in Ha.
  split; [|split].
  - intros l it o Hin. specialize (Ha _ Hin). cbn in Ha.
    destruct it; try discriminate. apply Nat.eqb_eq in Ha. subst. eauto.
  - intros l it o Hin. specialize (Ha _ Hin). cbn in Ha.
    destruct it; try discriminate. apply Nat.eqb_eq in Ha. subst. eauto.
  - intros category payload o Hin. specialize (Ha _ Hin). cbn in Ha.
    now apply String.eqb_eq in Ha.
Qed.

(** ** The handshakes in every run *)

Lemma run_trace_grows sched : forall s,
  exists evs, trace (run sched s) = trace s ++ evs.
Proof.
  induction sched as [|t sched IH]; intros s; cbn [run].
  - exists []. now rewrite app_nil_r.
  - destruct (IH (tick_step t s)) as [evs Hevs]. rewrite Hevs.
    destruct t as [|it|]; cbn [tick_step].
    + destruct (step_moves s) as [evs0 [Ht _]]. rewrite Ht.
      exists (evs0 ++ evs). now rewrite app_assoc.
    + now exists evs.
    + now exists evs.
Qed.

(** The first step of the thread, whenever it comes and whatever the queue
    holds, logs the start line and calls [adopt_motr_thread]. *)
Lemma run_init_adopts w : forall sched q b,
  1 <= consumer_ticks sched ->
  exists rest,
    trace (run sched (mkState Init q b None w []))
    = log_started
        :: Called adopt_motr_thread (fst (respond adopt_motr_thread w))
        :: rest.
Proof.
  induction sched as [|[|it|] sched IH]; intros q b H; cbn in H;
    cbn [run tick_step].
  - lia.
  - destruct (run_trace_grows sched (step (mkState Init q b None w [])))
      as [evs Hevs].
    rewrite Hevs. exists evs. exec.
    destruct (respond adopt_motr_thread w) as [[v|e] w1]; reflexivity.
  - unfold enqueue; cbn. apply IH. exact H.
  - unfold stop; cbn. apply IH. exact H.
Qed.

Lemma run_sleeping_stopped : forall sched q hl w tr,
  2 <= consumer_ticks sched ->
  let o := fst (respond shun_motr_thread w) in
  run sched (mkState Sleeping q true hl w tr)
  = mkState (Exited (match o with Ret _ => Returned | Raise e => Propagated e end))
            (q ++ enqueued sched) true hl (snd (respond shun_motr_thread w))
            (tr ++ [Sleep 200; ReadStopped true;
                    Called shun_motr_thread o; log_exited]).
Proof.
  induction sched as [|[|it|] sched IH]; intros q hl w tr H; cbn in H;
    cbn [run tick_step]; cbn zeta.
  - lia.
  - assert (S1 : step (mkState Sleeping q true hl w tr)
                 = mkState Checking q true hl w (tr ++ [Sleep 200]))
      by reflexivity.
    assert (H1 : 1 <= consumer_ticks sched)
      by (unfold consumer_ticks; lia).
    rewrite S1, (run_checking_stopped sched q hl w (tr ++ [Sleep 200]) H1).
    cbn zeta. tidy. reflexivity.
  - unfold enqueue; cbn. rewrite IH by exact H. cbn zeta.
    now rewrite <- app_assoc.
  - unfold stop; cbn. now rewrite IH by exact H.
Qed.

Lemma bracket_exited x tr :
  bracket_ok (Exited x) tr ->
  (exists e, tr = [log_started; Called adopt_motr_thread (Raise e)])
  \/ (exists v body o,
         tr = log_started :: Called adopt_motr_thread (Ret v)
                :: body ++ [Called shun_motr_thread o; log_exited]
         /\ count is_adopt body = 0 /\ count is_shun body = 0
         /\ count is_shun tr = 1).
Proof.
  intros [H|[v [body [o [-> Hq]]]]]; [now left|right].
  destruct (quiet_counts _ Hq) as [Ha Hs].
  exists v, body, o. split; [reflexivity|]. split; [exact Ha|].
  split; [exact Hs|].
  change (log_started :: Called adopt_motr_thread (Ret v)
            :: body ++ [Called shun_motr_thread o; log_exited])
    with ([log_started; Called adopt_motr_thread (Ret v)]
            ++ body ++ [Called shun_motr_thread o; log_exited]).
  rewrite !count_app, Hs. reflexivity.
Qed.

(** C9. Under any schedule from the start of the thread and whatever the
    queue holds. Before the first step of the thread nothing has happened.
    From its first step on, the trace begins with the start line and the
    call of [adopt_motr_thread], before every dequeue and dispatch, and
    the adoption is not repeated. While the thread has not exited no
    release is made. When the stop flag has been read up, the thread has
    exited and the release has been made once, after that read and before
    the exit line. A thread that has exited either failed to adopt, or
    made the release exactly once, as its last call, before the exit line.
    And the stop is acted upon: a thread that has found the queue empty
    and finds the flag up after its sleep exits within its next two steps
    (one, when it has slept already), whatever is enqueued meanwhile,
    makes the release once on the way and dequeues nothing more; so a
    thread started on an empty queue and asked to stop after its second
    step adopts, polls once, releases and ends, in eight events. *)
Theorem motr_thread_adopted_and_released_once sched q w :
  let s := _do_work sched q w in
  (consumer_ticks sched = 0 -> at_ s = Init /\ trace s = [])
  /\ (1 <= consumer_ticks sched ->
      exists rest,
        trace s
        = log_started
            :: Called adopt_motr_thread (fst (respond adopt_motr_thread w))
            :: rest
        /\ count is_adopt rest = 0 /\ count is_adopt (trace s) = 1)
  /\ (at_ s <> Init ->
      exists o rest,
        trace s = log_started :: Called adopt_motr_thread o :: rest
        /\ count is_adopt rest = 0 /\ count is_adopt (trace s) = 1)
  /\ ((forall x, at_ s <> Exited x) -> count is_shun (trace s) = 0)
  /\ (forall pre post,
         trace s = pre ++ ReadStopped true :: post ->
         (exists o, post = [Called shun_motr_thread o; log_exited])
         /\ count is_shun pre = 0 /\ count is_shun (trace s) = 1
         /\ exists x, at_ s = Exited x)
  /\ (forall x,
         at_ s = Exited x ->
         (exists e, trace s = [log_started; Called adopt_motr_thread (Raise e)])
         \/ (exists v body o,
                trace s = log_started :: Called adopt_motr_thread (Ret v)
                            :: body ++ [Called shun_motr_thread o; log_exited]
                /\ count is_adopt body = 0 /\ count is_shun body = 0
                /\ count is_shun (trace s) = 1))
  /\ (forall sched2,
         at_ s = Sleeping -> is_stopped s = true ->
         2 <= consumer_ticks sched2 ->
         let s2 := run sched2 s in
         let o := fst (respond shun_motr_thread (world s)) in
         (exists x, at_ s2 = Exited x)
         /\ trace s2
            = trace s ++ [Sleep 200; ReadStopped true;
                          Called shun_motr_thread o; log_exited]
         /\ count is_shun (trace s2) = 1
         /\ mailbox s2 = mailbox s ++ enqueued sched2)
  /\ (forall sched2,
         at_ s = Checking -> is_stopped s = true ->
         1 <= consumer_ticks sched2 ->
         let s2 := run sched2 s in
         let o := fst (respond shun_motr_thread (world s)) in
         (exists x, at_ s2 = Exited x)
         /\ trace s2
            = trace s ++ [ReadStopped true;
                          Called shun_motr_thread o; log_exited]
         /\ count is_shun (trace s2) = 1
         /\ mailbox s2 = mailbox s ++ enqueued sched2)
  /\ (forall v w1 sched2,
         respond adopt_motr_thread w = (Ret v, w1) ->
         2 <= consumer_ticks sched2 ->
         let o := fst (respond shun_motr_thread w1) in
         _do_work ([Consumer; Consumer; Stop] ++ sched2) [] w
         = mkState (Exited (match o with
                            | Ret _ => Returned
                            | Raise e => Propagated e
                            end))
                   (enqueued sched2) true None
                   (snd (respond shun_motr_thread w1))
                   [log_started; Called adopt_motr_thread (Ret v);
                    log_waiting; QGet None;
                    Sleep 200; ReadStopped true;
                    Called shun_motr_thread o; log_exited]).
Proof.
  intros s. pose proof (bracket_invariant sched q w) as Hb.
  pose proof (check_invariant sched q w) as [Hc _].
  change (bracket_ok (at_ s) (trace s)) in Hb.
  change (check_ok (at_ s) (trace s)) in Hc.
  assert (Hadopt : at_ s <> Init ->
            exists o rest,
              trace s = log_started :: Called adopt_motr_thread o :: rest
              /\ count is_adopt rest = 0 /\ count is_adopt (trace s) = 1)
    by now apply bracket_adopted.
  assert (Hnot : (forall x, at_ s <> Exited x) -> count is_shun (trace s) = 0)
    by now apply bracket_not_released.
  split; [|split; [|split; [|split; [|split; [|split; [|split; [|split]]]]]]].
  - intros H0. subst s. unfold _do_work, start.
    rewrite run_without_consumer by exact H0. now split.
  - intros H1.
    destruct (run_init_adopts w sched q false H1) as [rest Hrest].
    change (run sched (mkState Init q false None w [])) with s in Hrest.
    assert (Hp : at_ s <> Init).
    { intros Hi. rewrite Hi in Hb. cbn in Hb. rewrite Hb in Hrest.
      discriminate. }
    destruct (Hadopt Hp) as [o [rest' [Ht [Hc1 Hc2]]]].
    exists rest. split; [exact Hrest|].
    rewrite Hrest in Ht. injection Ht as _ Hr. subst rest'.
    split; [exact Hc1|exact Hc2].
  - exact Hadopt.
  - exact Hnot.
  - intros pre post. now apply bracket_released.
  - intros x Hx. rewrite Hx in Hb. now apply (bracket_exited x).
  - intros sched2 Hp Hst H2 s2 o.
    assert (Hrun : (exists x, at_ s2 = Exited x)
              /\ trace s2
                 = trace s ++ [Sleep 200; ReadStopped true;
                               Called shun_motr_thread o; log_exited]
              /\ mailbox s2 = mailbox s ++ enqueued sched2).
    { subst s2 o. destruct s as [p mq b hl w0 tr]. cbn in Hst, Hp |- *.
      subst b p. rewrite (run_sleeping_stopped sched2 mq hl w0 tr H2). cbn.
      split; [eauto|]. split; reflexivity. }
    destruct Hrun as [Hx [Ht Hm]].
    split; [exact Hx|]. split; [exact Ht|]. split; [|exact Hm].
    rewrite Ht, count_app, Hnot; [reflexivity|].
    intros x Hex. congruence.
  - intros sched2 Hp Hst H1 s2 o.
    assert (Hrun : (exists x, at_ s2 = Exited x)
              /\ trace s2
                 = trace s ++ [ReadStopped true;
                               Called shun_motr_thread o; log_exited]
              /\ mailbox s2 = mailbox s ++ enqueued sched2).
    { subst s2 o. destruct s as [p mq b hl w0 tr]. cbn in Hst, Hp |- *.
      subst b p. rewrite (run_checking_stopped sched2 mq hl w0 tr H1). cbn.
      split; [eauto|]. split; reflexivity. }
    destruct Hrun as [Hx [Ht Hm]].
    split; [exact Hx|]. split; [exact Ht|]. split; [|exact Hm].
    rewrite Ht, count_app, Hnot; [reflexivity|].
    intros x Hex. congruence.
  - intros v w1 sched2 E H2 o. unfold _do_work, start.
    cbn [app run tick_step].
    assert (S1 : step (mkState Init [] false None w [])
                 = mkState LoopTop [] false None w1
                     [log_started; Called adopt_motr_thread (Ret v)])
      by (exec; rewrite E; reflexivity).
    assert (S2 : step (mkState LoopTop [] false None w1
                         [log_started; Called adopt_motr_thread (Ret v)])
                 = mkState Sleeping [] false None w1
                     [log_started; Called adopt_motr_thread (Ret v);
                      log_waiting; QGet None])
      by (exec; reflexivity).
    rewrite S1, S2. unfold stop. cbn [at_ mailbox ha_link world trace].
    rewrite (run_sleeping_stopped sched2 [] None w1 _ H2). reflexivity.
Qed.

(** ** StopIteration out of a dispatch *)




(** ** Whom a call is made for *)







(** ** Retries run to their end *)







(** ** A backlog, call by call *)





End Handler.

Arguments mkState {W}.
Arguments at_ {W}.
Arguments mailbox {W}.
Arguments is_stopped {W}.
Arguments ha_link {W}.
Arguments world {W}.
Arguments trace {W}.
Arguments start {W}.
Arguments _do_work {W}.
Arguments stop {W}.
Arguments step {W}.
Arguments run {W}.
Arguments dispatch {W}.
Arguments record {W}.
Arguments fails_then_succeeds {W}.

(** ** The model at work *)

(** The stub record of the SNS arm, with the literal parsed. *)
Example sns_stub_value :
  sns_stub parse_fid
  = [mkSnsRepairStatusItem 25 "M0_CMS_ACTIVE"
       (mkFid 0x7200000000000001 0xdeadbeef)].
Proof. reflexivity. Qed.

(** The scan rejects a dispatch that begins inside another one, and a call
    of an arm outside a dispatch. *)
Example scan_rejects_overlap :
  sequential [log_waiting; log_got (ProcessEvent 1); log_got (ProcessEvent 2)]
  = false
  /\ sequential [log_waiting; Called (update_process_status 1) (Ret PyNone)]
     = false.
Proof. split; reflexivity. Qed.

(** ProcessEvent 1 then ProcessEvent 2, Consul failing twice: the calls are
    1 (fails), wait, 1 (fails), wait, 1, then 2. *)
Example two_process_events :
  filter (fun e => is_called e || match e with Sleep 5000 => true | _ => false end)
         (trace (_do_work consul_flaky json parse_fid (repeat Consumer 9)
                          [ProcessEvent 1; ProcessEvent 2] 0))
  = [Called adopt_motr_thread (Ret PyNone);
     Called (update_process_status 1)
            (Raise (OtherException "HAConsistencyException"));
     Sleep 5000;
     Called (update_process_status 1)
            (Raise (OtherException "HAConsistencyException"));
     Sleep 5000;
     Called (update_process_status 1) (Ret PyNone);
     Called (update_process_status 2) (Ret PyNone)].
Proof. reflexivity. Qed.

(** An EntrypointRequest binds the local; a later broadcast goes out on the
    link of that request and its result is put on the reply queue. *)
Example broadcast_after_entrypoint :
  trace (_do_work all_fine json parse_fid (repeat Consumer 5)
                  [EntrypointRequest 3 0; BroadcastHAStates [] (Some 7)] tt)
  = [log_started; Called adopt_motr_thread (Ret PyNone);
     log_waiting; QGet (Some (EntrypointRequest 3 0));
     log_got (EntrypointRequest 3 0);
     Called (send_entrypoint_request_reply 3 (EntrypointRequest 3 0))
            (Ret PyNone);
     log_waiting; QGet (Some (BroadcastHAStates [] (Some 7)));
     log_got (BroadcastHAStates [] (Some 7));
     Log INFO "HA states: %s" [PyStates []];
     Called (broadcast_ha_states 3 []) (Ret PyNone);
     Put 7 PyNone].
Proof. reflexivity. Qed.

(** C1, at a concrete input: a BroadcastHAStates message with a reply queue,
    first in the queue of a fresh thread. *)
Lemma broadcast_first_message_is_dropped_witness :
  all_fine adopt_motr_thread tt = (Ret PyNone, tt)
  /\ let it := BroadcastHAStates [] (Some 7) in
     let s := _do_work all_fine json parse_fid [Consumer; Consumer; Consumer]
                       [it] tt in
     s = mkState LoopTop [] false None tt
           [log_started; Called adopt_motr_thread (Ret PyNone);
            log_waiting; QGet (Some it);
            log_got it; Log INFO "HA states: %s" [PyStates []];
            LogException "**ERROR**" (UnboundLocalError "ha_link")]
     /\ count is_put (trace s) = 0
     /\ count is_called (trace s) = 1.
Proof.
  split; [reflexivity|].
  apply (broadcast_first_message_is_dropped unit all_fine json parse_fid
           [] (Some 7) [] tt PyNone tt).
  reflexivity.
Defined.

(** C2, at concrete inputs: an idle thread polls once and finds the flag
    down; a stop requested while a message is in hand does not change its
    dispatch. *)
Lemma stop_flag_read_only_while_waiting_witness :
  (let pre := [log_started; Called adopt_motr_thread (Ret PyNone);
               log_waiting; QGet None; Sleep 200] in
   trace (_do_work all_fine json parse_fid (repeat Consumer 4) [] tt)
   = pre ++ ReadStopped false :: []
   /\ (exists pre', pre = pre' ++ [QGet None; Sleep 200])
   /\ (@nil event = [] \/ exists r post', @nil event = QGet r :: post'))
  /\ (let s := mkState (Got (ProcessEvent 1)) [] false None tt [] in
      at_ s <> Checking
      /\ step all_fine json parse_fid (stop s)
         = stop (step all_fine json parse_fid s)).
Proof.
  destruct (stop_flag_read_only_while_waiting unit all_fine json parse_fid)
    as [Hread Hstep].
  split.
  - split; [reflexivity|].
    exact (Hread (repeat Consumer 4) [] tt
                 [log_started; Called adopt_motr_thread (Ret PyNone);
                  log_waiting; QGet None; Sleep 200]
                 false [] eq_refl).
  - split; [discriminate|]. apply Hstep. discriminate.
Defined.

(** C3, at concrete inputs: the link is down for an EntrypointRequest that
    is followed by a ProcessEvent. *)
Lemma errors_are_logged_and_dropped_witness :
  let it := EntrypointRequest 3 0 in
  let nxt := ProcessEvent 1 in
  let e := OtherException "ConnectionError" in
  let s := mkState (Got it) [nxt] false None tt [] in
  let s' := mkState (Got it) [nxt] false (Some 3) tt
              [log_got it;
               Called (send_entrypoint_request_reply 3 it) (Raise e)] in
  (at_ s = Got it
   /\ dispatch link_down json parse_fid it (record [log_got it] s)
      = (Exn e, s')
   /\ e <> StopIteration
   /\ mailbox (step link_down json parse_fid s) = [nxt])
  /\ (dispatch arms_stop json parse_fid it (record [log_got it] s)
      = (Exn StopIteration,
         mkState (Got it) [nxt] false (Some 3) tt
           [log_got it;
            Called (send_entrypoint_request_reply 3 it) (Raise StopIteration)])
      /\ exists x, at_ (step arms_stop json parse_fid s) = Exited x)
  /\ (link_down (send_entrypoint_request_reply 3 it) tt = (Raise e, tt)
      /\ step link_down json parse_fid (step link_down json parse_fid s)
         = mkState (Got nxt) [] false (Some 3) tt
             [log_got it;
              Called (send_entrypoint_request_reply 3 it) (Raise e);
              LogException "**ERROR**" e;
              log_waiting; QGet (Some nxt)]).
Proof.
  intros it nxt e s s'.
  destruct (errors_are_logged_and_dropped unit link_down json parse_fid)
    as [Hlog [_ Hreq]].
  destruct (errors_are_logged_and_dropped unit arms_stop json parse_fid)
    as [_ [Hstop _]].
  split; [|split].
  - split; [reflexivity|]. split; [reflexivity|]. split; [discriminate|].
    apply (Hlog s it e s'); [reflexivity|reflexivity|discriminate].
  - split; [reflexivity|]. apply (Hstop s it _ eq_refl eq_refl).
  - split; [reflexivity|].
    destruct (Hreq 3 0%Z nxt [] false None tt [] e tt eq_refl)
      as [_ H2]; [discriminate|].
    exact H2.
Defined.

(** C4, at a concrete input: Consul fails twice; meanwhile a producer
    enqueues and the operator asks for a stop. *)
Lemma retry_until_success_witness :
  let it := ProcessEvent 7 in
  let c := update_process_status 7 in
  let e := OtherException "HAConsistencyException" in
  let sched := [Consumer; Enqueue (Unsupported "x"); Consumer; Stop;
                Consumer; Consumer] in
  wrapped it c
  /\ fails_then_succeeds consul_flaky c [e; e] PyNone 0 3
  /\ consumer_ticks sched = 4
  /\ run consul_flaky json parse_fid sched (mkState (Got it) [] false None 0 [])
     = mkState LoopTop [Unsupported "x"] true None 3
         [log_got it;
          Called c (Raise e); LogRetry e; Sleep 5000;
          Called c (Raise e); LogRetry e; Sleep 5000;
          Called c (Ret PyNone)].
Proof.
  intros it c e sched.
  assert (Hw : wrapped it c) by constructor.
  assert (Hf : fails_then_succeeds consul_flaky c [e; e] PyNone 0 3).
  { exists 1. split; [reflexivity|]. exists 2. split; reflexivity. }
  split; [exact Hw|]. split; [exact Hf|]. split; [reflexivity|].
  exact (proj1 (retry_until_success nat consul_flaky json parse_fid
                  it c [e; e] PyNone 0 3 sched [] false None []
                  Hw Hf eq_refl)).
Defined.

(** C5, at a concrete input: the publisher returns offset 0. *)
Lemma stob_ioq_published_once_witness :
  let it := StobIoqError (mkFid 1 2) 0 in
  let c := publish "STOB_IOQ" (json it) in
  let s' := step publisher json parse_fid (mkState (Got it) [] false None 0 []) in
  fst (publisher c 0) = Ret (PyInt 0)
  /\ trace s'
     = [log_got it;
        Log INFO "Stob IOQ: %s" [PyFid (mkFid 1 2)];
        Log DEBUG "Stob IOQ JSON: %s" [PyStr (json it)];
        Called c (Ret (PyInt 0));
        Log DEBUG "Written to epoch: %s" [PyInt 0]]
  /\ at_ s' = LoopTop
  /\ published (trace s') = [("STOB_IOQ", json it)].
Proof.
  intros it c s'.
  destruct (stob_ioq_published_once nat publisher json parse_fid
              (mkFid 1 2) 0 [] false None 0 [])
    as [[evs [Ht [_ Hoff]]] Hpub].
  destruct (Hoff (PyInt 0) eq_refl) as [Hevs [Hat _]].
  split; [reflexivity|]. split; [|split].
  - subst s' it c. rewrite Ht, Hevs. reflexivity.
  - exact Hat.
  - exact Hpub.
Defined.


(** C9, at concrete inputs: a thread with a backlog takes its first step
    after a producer has enqueued; an idle thread is asked to stop; a
    message arrives while the stopped thread sleeps; and the whole run of a
    thread that is asked to stop after its second step. *)
Lemma motr_thread_adopted_and_released_once_witness :
  (let sched := [Enqueue (ProcessEvent 2); Consumer] in
   let s := _do_work all_fine json parse_fid sched [ProcessEvent 1] tt in
   1 <= consumer_ticks sched
   /\ at_ s <> Init /\ (forall x, at_ s <> Exited x)
   /\ (exists rest,
          trace s
          = log_started :: Called adopt_motr_thread (Ret PyNone) :: rest
          /\ count is_adopt rest = 0 /\ count is_adopt (trace s) = 1)
   /\ count is_shun (trace s) = 0)
  /\ (let s := _do_work all_fine json parse_fid
                        [Consumer; Consumer; Stop; Consumer; Consumer]
                        [] tt in
      let pre := [log_started; Called adopt_motr_thread (Ret PyNone);
                  log_waiting; QGet None; Sleep 200] in
      trace s = pre ++ ReadStopped true
                    :: [Called shun_motr_thread (Ret PyNone); log_exited]
      /\ count is_shun pre = 0 /\ count is_shun (trace s) = 1
      /\ exists x, at_ s = Exited x)
  /\ (let s := _do_work all_fine json parse_fid [Consumer; Consumer; Stop]
                        [] tt in
      let sched2 := [Consumer; Enqueue (ProcessEvent 1); Consumer] in
      let s2 := run all_fine json parse_fid sched2 s in
      at_ s = Sleeping /\ is_stopped s = true /\ 2 <= consumer_ticks sched2
      /\ (exists x, at_ s2 = Exited x)
      /\ trace s2
         = trace s ++ [Sleep 200; ReadStopped true;
                       Called shun_motr_thread (Ret PyNone); log_exited]
      /\ count is_shun (trace s2) = 1
      /\ mailbox s2 = [ProcessEvent 1])
  /\ (let sched2 := [Enqueue (ProcessEvent 1); Consumer; Consumer] in
      all_fine adopt_motr_thread tt = (Ret PyNone, tt)
      /\ 2 <= consumer_ticks sched2
      /\ _do_work all_fine json parse_fid
                  ([Consumer; Consumer; Stop] ++ sched2) [] tt
         = mkState (Exited Returned) [ProcessEvent 1] true None tt
             [log_started; Called adopt_motr_thread (Ret PyNone);
              log_waiting; QGet None;
              Sleep 200; ReadStopped true;
              Called shun_motr_thread (Ret PyNone); log_exited]).
Proof.
  split; [|split; [|split]].
  - intros sched s.
    destruct (motr_thread_adopted_and_released_once unit all_fine json
                parse_fid sched [ProcessEvent 1] tt)
      as [_ [Hfirst [_ [Hs _]]]].
    assert (H0 : 1 <= consumer_ticks sched) by (cbn; lia).
    assert (H1 : at_ s <> Init) by discriminate.
    assert (H2 : forall x, at_ s <> Exited x) by (intros x; discriminate).
    split; [exact H0|]. split; [exact H1|]. split; [exact H2|].
    split; [exact (Hfirst H0)|exact (Hs H2)].
  - intros s pre.
    destruct (motr_thread_adopted_and_released_once unit all_fine json
                parse_fid [Consumer; Consumer; Stop; Consumer; Consumer]
                [] tt) as [_ [_ [_ [_ [Hr _]]]]].
    split; [reflexivity|].
    destruct (Hr pre [Called shun_motr_thread (Ret PyNone); log_exited]
                 eq_refl) as [_ H].
    exact H.
  - intros s sched2 s2.
    destruct (motr_thread_adopted_and_released_once unit all_fine json
                parse_fid [Consumer; Consumer; Stop] [] tt)
      as [_ [_ [_ [_ [_ [_ [Hl _]]]]]]].
    assert (H1 : at_ s = Sleeping) by reflexivity.
    assert (H2 : is_stopped s = true) by reflexivity.
    assert (H3 : 2 <= consumer_ticks sched2) by (cbn; lia).
    split; [exact H1|]. split; [exact H2|]. split; [exact H3|].
    exact (Hl sched2 H1 H2 H3).
  - intros sched2.
    destruct (motr_thread_adopted_and_released_once unit all_fine json
                parse_fid [] [] tt)
      as [_ [_ [_ [_ [_ [_ [_ [_ Hrun]]]]]]]].
    assert (H1 : all_fine adopt_motr_thread tt = (Ret PyNone, tt))
      by reflexivity.
    assert (H2 : 2 <= consumer_ticks sched2) by (cbn; lia).
    split; [exact H1|]. split; [exact H2|].
    exact (Hrun PyNone tt sched2 H1 H2).
Defined.


(** The retry wrapper as the spec describes it retries on any exception:
    in this model a StopIteration raised by [update_process_status] does
    not come out of [repeat_if_fails]; it is logged and retried like any
    other failure, and after three attempts the thread is still retrying
    and has made no release handshake. *)
Example stop_iteration_in_wrapped_call_is_retried :
  let it := ProcessEvent 7 in
  let c := update_process_status 7 in
  let s := _do_work arms_stop json parse_fid (repeat Consumer 6) [it] tt in
  arms_stop c tt = (Raise StopIteration, tt)
  /\ at_ s = Retrying 5000 c
  /\ trace s
     = [log_started; Called adopt_motr_thread (Ret PyNone);
        log_waiting; QGet (Some it); log_got it;
        Called c (Raise StopIteration); LogRetry StopIteration; Sleep 5000;
        Called c (Raise StopIteration); LogRetry StopIteration; Sleep 5000;
        Called c (Raise StopIteration); LogRetry StopIteration; Sleep 5000]
  /\ count is_shun (trace s) = 0.
Proof. repeat split. Qed.

(** ** The further properties at work *)

(** X2, at a concrete input: a broadcast that follows an EntrypointRequest
    received on link 3. *)
Lemma broadcast_goes_to_last_entrypoint_link_witness :
  let it := BroadcastHAStates [] (Some 7) in
  let s := _do_work all_fine json parse_fid (repeat Consumer 4)
                    [EntrypointRequest 3 0; it] tt in
  at_ s = Got it
  /\ last_link (dispatched (trace s)) = Some 3
  /\ exists rest,
       trace (step all_fine json parse_fid s)
       = trace s ++ [log_got it; Log INFO "HA states: %s" [PyStates []];
                     Called (broadcast_ha_states 3 []) (Ret PyNone)] ++ rest
       /\ rest = [Put 7 PyNone].
Proof.
  intros it s.
  assert (Hat : at_ s = Got it) by reflexivity.
  pose proof (broadcast_goes_to_last_entrypoint_link unit all_fine json
                parse_fid (repeat Consumer 4) [EntrypointRequest 3 0; it] tt
                [] (Some 7) Hat) as H.
  split; [exact Hat|]. split; [reflexivity|].
  change (last_link
            (dispatched
               (trace (_do_work all_fine json parse_fid (repeat Consumer 4)
                                [EntrypointRequest 3 0; it] tt))))
    with (Some 3) in H.
  destruct H as [rest [Ht Hr]]. exists rest. split; [exact Ht|].
  exact (Hr PyNone eq_refl).
Defined.

(** X3, at a concrete input: the put of the run above. *)
Lemma reply_only_after_returned_broadcast_witness :
  let it := BroadcastHAStates [] (Some 7) in
  let req := EntrypointRequest 3 0 in
  let pre := [log_started; Called adopt_motr_thread (Ret PyNone);
              log_waiting; QGet (Some req); log_got req;
              Called (send_entrypoint_request_reply 3 req) (Ret PyNone);
              log_waiting; QGet (Some it); log_got it;
              Log INFO "HA states: %s" [PyStates []];
              Called (broadcast_ha_states 3 []) (Ret PyNone)] in
  trace (_do_work all_fine json parse_fid (repeat Consumer 5) [req; it] tt)
  = pre ++ Put 7 PyNone :: []
  /\ ((exists pre' l sts,
          pre = pre' ++ [Called (broadcast_ha_states l sts) (Ret PyNone)])
      \/ (exists pre',
             pre = pre' ++ [Log INFO "SNS status is received" []]
             /\ PyNone = PySnsItems (sns_stub parse_fid))).
Proof.
  intros it req pre. split; [reflexivity|].
  exact (reply_only_after_returned_broadcast unit all_fine json parse_fid
           (repeat Consumer 5) [req; it] tt pre 7 PyNone [] eq_refl).
Defined.

(** X5, at a concrete input: the runtime refuses the thread while a
    producer enqueues. *)
Lemma failed_adoption_ends_the_thread_witness :
  let e := OtherException "RuntimeError" in
  let sched := [Enqueue (ProcessEvent 2); Consumer; Stop; Consumer] in
  no_runtime adopt_motr_thread tt = (Raise e, tt)
  /\ 1 <= consumer_ticks sched
  /\ _do_work no_runtime json parse_fid sched [ProcessEvent 1] tt
     = mkState (Exited (Propagated e)) [ProcessEvent 1; ProcessEvent 2]
               true None tt
               [log_started; Called adopt_motr_thread (Raise e)].
Proof.
  intros e sched.
  assert (H1 : no_runtime adopt_motr_thread tt = (Raise e, tt)) by reflexivity.
  assert (H2 : 1 <= consumer_ticks sched) by (cbn; lia).
  split; [exact H1|]. split; [exact H2|].
  exact (failed_adoption_ends_the_thread unit no_runtime json parse_fid
           sched [ProcessEvent 1] tt e tt H1 H2).
Defined.

(** X6, at a concrete input: an idle thread that is asked to stop. *)
Lemma thread_ends_only_through_the_handshakes_witness :
  let sched := [Consumer; Consumer; Stop; Consumer; Consumer] in
  at_ (_do_work all_fine json parse_fid sched [] tt) = Exited Returned
  /\ exit_shape Returned (trace (_do_work all_fine json parse_fid sched [] tt)).
Proof.
  intros sched.
  assert (H : at_ (_do_work all_fine json parse_fid sched [] tt)
              = Exited Returned) by reflexivity.
  split; [exact H|].
  exact (thread_ends_only_through_the_handshakes unit all_fine json parse_fid
           sched [] tt Returned H).
Defined.

(** X8, at a concrete input: a message arrives while the stopped thread
    sleeps. *)
Lemma stop_seen_after_sleep_ends_thread_witness :
  let sched := [Consumer; Enqueue (ProcessEvent 1); Consumer] in
  2 <= consumer_ticks sched
  /\ run all_fine json parse_fid sched (mkState Sleeping [] true None tt [])
     = mkState (Exited Returned) [ProcessEvent 1] true None tt
         [Sleep 200; ReadStopped true;
          Called shun_motr_thread (Ret PyNone); log_exited].
Proof.
  intros sched.
  assert (H : 2 <= consumer_ticks sched) by (cbn; lia).
  split; [exact H|].
  exact (stop_seen_after_sleep_ends_thread unit all_fine json parse_fid
           sched [] None tt [] H).
Defined.

(** X9, at a concrete input: three messages are waiting and the flag is
    already up. *)
Lemma backlog_is_served_before_the_flag_is_read_witness :
  let q := [EntrypointRequest 3 0; ProcessEvent 1; Unsupported "x"] in
  healthy unit all_fine
  /\ exists hl' w' evs,
       run all_fine json parse_fid (repeat Consumer (total_cost q))
           (mkState LoopTop q true None tt [])
       = mkState LoopTop [] true hl' w' ([] ++ evs)
       /\ dispatched evs = q /\ no_read evs = true.
Proof.
  intros q.
  assert (H : healthy unit all_fine)
    by (intros c w; exists PyNone, w; reflexivity).
  split; [exact H|].
  exact (backlog_is_served_before_the_flag_is_read unit all_fine json
           parse_fid H q true None tt []).
Defined.

(** X11, at a concrete input: Consul fails for ever while a producer
    enqueues and the operator asks for a stop. *)
Lemma failing_wrapped_call_blocks_the_thread_witness :
  let c := update_process_status 7 in
  let sched := [Consumer; Enqueue (ProcessEvent 8); Stop; Consumer] in
  always_fails unit arms_stop c
  /\ exists es w',
       List.length es = consumer_ticks sched
       /\ run arms_stop json parse_fid sched
              (mkState (Retrying 5000 c) [] false None tt [])
          = mkState (Retrying 5000 c) ([] ++ enqueued sched)
                    (false || stop_requested sched) None w'
                    ([] ++ attempts 5000 c es)
       /\ dispatched (attempts 5000 c es) = []
       /\ no_read (attempts 5000 c es) = true.
Proof.
  intros c sched.
  assert (H : always_fails unit arms_stop c)
    by (intros w; exists StopIteration, w; reflexivity).
  split; [exact H|].
  exact (failing_wrapped_call_blocks_the_thread unit arms_stop json parse_fid
           5000%N c H sched [] false None tt []).
Defined.

(** X12, at a concrete input: the reply of the run of X2. *)
Lemma replies_go_to_the_link_of_their_message_witness :
  let req := EntrypointRequest 3 0 in
  let tr := trace (_do_work all_fine json parse_fid (repeat Consumer 3)
                            [req] tt) in
  In (Called (send_entrypoint_request_reply 3 req) (Ret PyNone)) tr
  /\ exists z, req = EntrypointRequest 3 z.
Proof.
  intros req tr.
  assert (H : In (Called (send_entrypoint_request_reply 3 req) (Ret PyNone)) tr)
    by (cbn; tauto).
  split; [exact H|].
  exact (proj1 (replies_go_to_the_link_of_their_message unit all_fine json
                  parse_fid (repeat Consumer 3) [req] tt)
               3 req (Ret PyNone) H).
Defined.
